(** * core-js-101, 05-objects-tasks.js: Rectangle, JSON helpers and the
      CSS selector builder.

    The objects of the program live in a store; a method call is a
    computation over that store which either returns a value or throws.
    Selector objects are referred to by their location, so that a chain
    [builder.element('a').id('b')] mutates and returns one and the same
    object, and a combined selector holds references to its children. *)

From Stdlib Require Import Ascii String List Arith Lia PrimFloat DecimalString.
From stdpp Require Import base list strings.

(** ** Strings *)

(** The double-quote character, for the literals of the examples. *)
Definition dq : string := String (ascii_of_nat 34) EmptyString.

(** [Array.prototype.join('')] on an array of strings. *)
Definition join (items : list string) : string := String.concat "" items.

Definition is_empty (s : string) : bool :=
  match s with EmptyString => true | String _ _ => false end.

(** ** The store and the computations over it *)

Definition loc := nat.

(** The three arrays of a selector are made by its constructor, one per
    object, and the program never hands out a reference to them: they are
    kept in the record of the object that owns them. *)
Record MySelector := mkMySelector {
  el : string;
  idValue : string;
  cls : list string;
  attrValue : list string;
  psdCls : list string;
  psdEl : string;
  order : nat
}.

Record MyCombinedSelector := mkMyCombinedSelector {
  s1 : loc;
  c : string;
  s2 : loc
}.

Inductive object :=
  | OSelector (s : MySelector)
  | OCombined (k : MyCombinedSelector).

(** Objects are never freed: the store is the list of the objects
    allocated so far, and a location is an index into it. *)
Definition heap := list object.

(** The two [Error]s that [check] throws are told apart by their message;
    [TypeError] and [SyntaxError] are the host's: a method looked up on an
    object that does not have it, [Object.setPrototypeOf] on [null], a text
    that [JSON.parse] rejects. *)
Inductive error :=
  | DuplicateSingularPartError
  | OrderViolationError
  | TypeError
  | SyntaxError.

(** A call returns, throws, or is left undetermined by the model: a
    recursion deeper than the fuel it was given, or a host function outside
    the values tabulated for it. *)
Inductive outcome (A : Type) :=
  | Ok (a : A)
  | Throw (e : error)
  | Undetermined.
Arguments Ok {A} a.
Arguments Throw {A} e.
Arguments Undetermined {A}.

Definition M (A : Type) : Type := heap -> outcome A * heap.

Definition ret {A} (a : A) : M A := fun h => (Ok a, h).

Definition bind {A B} (m : M A) (f : A -> M B) : M B :=
  fun h =>
    match m h with
    | (Ok a, h') => f a h'
    | (Throw e, h') => (Throw e, h')
    | (Undetermined, h') => (Undetermined, h')
    end.

Definition throw {A} (e : error) : M A := fun h => (Throw e, h).

Definition undetermined {A} : M A := fun h => (Undetermined, h).

Notation "'do' x <- m ; k" := (bind m (fun x => k))
  (at level 10, x name, m at level 100, k at level 200).
Notation "m ;; k" := (bind m (fun _ => k))
  (at level 100, k at level 200, right associativity).

(** [new]: the object is placed at the first unused location. *)
Definition alloc (o : object) : M loc := fun h => (Ok (length h), h ++ [o]).

Definition deref (l : loc) : M object :=
  fun h => match h !! l with
           | Some o => (Ok o, h)
           | None => (Throw TypeError, h)
           end.

(** Reading [this] inside a method of [MySelector.prototype]. *)
Definition this_selector (this : loc) : M MySelector :=
  do o <- deref this;
  match o with
  | OSelector s => ret s
  | OCombined _ => throw TypeError
  end.

(** A field assignment [this.f = v]. *)
Definition assign (this : loc) (upd : MySelector -> MySelector) : M unit :=
  do s <- this_selector this;
  fun h => (Ok tt, <[this := OSelector (upd s)]> h).

(** ** Fields of a selector *)

Definition set_el (v : string) (s : MySelector) : MySelector :=
  mkMySelector v (idValue s) (cls s) (attrValue s) (psdCls s) (psdEl s) (order s).
Definition set_idValue (v : string) (s : MySelector) : MySelector :=
  mkMySelector (el s) v (cls s) (attrValue s) (psdCls s) (psdEl s) (order s).
Definition push_cls (v : string) (s : MySelector) : MySelector :=
  mkMySelector (el s) (idValue s) (cls s ++ [v]) (attrValue s) (psdCls s) (psdEl s) (order s).
Definition push_attrValue (v : string) (s : MySelector) : MySelector :=
  mkMySelector (el s) (idValue s) (cls s) (attrValue s ++ [v]) (psdCls s) (psdEl s) (order s).
Definition push_psdCls (v : string) (s : MySelector) : MySelector :=
  mkMySelector (el s) (idValue s) (cls s) (attrValue s) (psdCls s ++ [v]) (psdEl s) (order s).
Definition set_psdEl (v : string) (s : MySelector) : MySelector :=
  mkMySelector (el s) (idValue s) (cls s) (attrValue s) (psdCls s) v (order s).
Definition set_order (n : nat) (s : MySelector) : MySelector :=
  mkMySelector (el s) (idValue s) (cls s) (attrValue s) (psdCls s) (psdEl s) n.

(** The property names that [check] and [stringify] read through
    [this[val]], and what such a read yields. *)
Inductive prop := p_el | p_idValue | p_cls | p_attrValue | p_psdCls | p_psdEl.

Inductive value :=
  | VString (s : string)
  | VArray (a : list string).

Definition get (s : MySelector) (val : prop) : value :=
  match val with
  | p_el => VString (el s)
  | p_idValue => VString (idValue s)
  | p_cls => VArray (cls s)
  | p_attrValue => VArray (attrValue s)
  | p_psdCls => VArray (psdCls s)
  | p_psdEl => VString (psdEl s)
  end.

(** [typeof v === 'string' && v.length > 0] *)
Definition nonempty_string (v : value) : bool :=
  match v with
  | VString s => 0 <? String.length s
  | VArray _ => false
  end.

(** [!v]: the empty string is falsy, an array never is. *)
Definition falsy (v : value) : bool :=
  match v with
  | VString s => is_empty s
  | VArray _ => false
  end.

(** ** MySelector *)

(** [function MySelector()] *)
Definition empty_selector : MySelector :=
  mkMySelector "" "" [] [] [] "" 0.

Definition new_MySelector : M loc := alloc (OSelector empty_selector).

Module MySelector_prototype.

Definition check (this : loc) (val : prop) (ord : nat) : M unit :=
  do s <- this_selector this;
  if nonempty_string (get s val) then throw DuplicateSingularPartError
  else if ord <? order s then throw OrderViolationError
  else assign this (set_order ord).

Definition element (this : loc) (v : string) : M loc :=
  check this p_el 1 ;; assign this (set_el v) ;; ret this.

Definition id (this : loc) (v : string) : M loc :=
  check this p_idValue 2 ;; assign this (set_idValue v) ;; ret this.

Definition class (this : loc) (v : string) : M loc :=
  check this p_cls 3 ;; assign this (push_cls v) ;; ret this.

Definition attr (this : loc) (v : string) : M loc :=
  check this p_attrValue 4 ;; assign this (push_attrValue v) ;; ret this.

Definition pseudoClass (this : loc) (v : string) : M loc :=
  check this p_psdCls 5 ;; assign this (push_psdCls v) ;; ret this.

Definition pseudoElement (this : loc) (v : string) : M loc :=
  check this p_psdEl 6 ;; assign this (set_psdEl v) ;; ret this.

Definition transform (v : value) (start end_ : string) : string :=
  let copy := if falsy v then VArray [] else v in
  match copy with
  | VArray a => join (map (fun item => start +:+ item +:+ end_) a)
  | VString s => start +:+ s +:+ end_
  end.

Definition stringify (this : loc) : M string :=
  do s <- this_selector this;
  let strEl := el s in
  let res :=
    strEl
    +:+ transform (get s p_idValue) "#" ""
    +:+ transform (get s p_cls) "." ""
    +:+ transform (get s p_attrValue) "[" "]"
    +:+ transform (get s p_psdCls) ":" ""
    +:+ transform (get s p_psdEl) "::" "" in
  ret res.

End MySelector_prototype.

(** The text that [stringify] builds from the fields of a selector. *)
Definition selector_text (s : MySelector) : string :=
  el s
  +:+ MySelector_prototype.transform (get s p_idValue) "#" ""
  +:+ MySelector_prototype.transform (get s p_cls) "." ""
  +:+ MySelector_prototype.transform (get s p_attrValue) "[" "]"
  +:+ MySelector_prototype.transform (get s p_psdCls) ":" ""
  +:+ MySelector_prototype.transform (get s p_psdEl) "::" "".

(** ** MyCombinedSelector *)

Definition new_MyCombinedSelector (s1 : loc) (c : string) (s2 : loc) : M loc :=
  alloc (OCombined (mkMyCombinedSelector s1 c s2)).

(** [x.stringify()] resolves to the method of the prototype of [x].  The
    method of a combined selector calls [stringify] on its children, so the
    recursion runs through the store; [fuel] bounds its depth. *)
Fixpoint stringify (fuel : nat) (this : loc) : M string :=
  match fuel with
  | 0 => undetermined
  | S fuel' =>
      do o <- deref this;
      match o with
      | OSelector _ => MySelector_prototype.stringify this
      | OCombined k =>
          (* MyCombinedSelector.prototype.stringify *)
          do a <- stringify fuel' (s1 k);
          do b <- stringify fuel' (s2 k);
          ret (a +:+ " " +:+ c k +:+ " " +:+ b)
      end
  end.

(** ** cssSelectorBuilder *)

Module cssSelectorBuilder.

Definition element (v : string) : M loc :=
  do s <- new_MySelector; MySelector_prototype.element s v.

Definition id (v : string) : M loc :=
  do s <- new_MySelector; MySelector_prototype.id s v.

Definition class (v : string) : M loc :=
  do s <- new_MySelector; MySelector_prototype.class s v.

Definition attr (v : string) : M loc :=
  do s <- new_MySelector; MySelector_prototype.attr s v.

Definition pseudoClass (v : string) : M loc :=
  do s <- new_MySelector; MySelector_prototype.pseudoClass s v.

Definition pseudoElement (v : string) : M loc :=
  do s <- new_MySelector; MySelector_prototype.pseudoElement s v.

Definition combine (selector1 : loc) (combinator : string) (selector2 : loc) : M loc :=
  new_MyCombinedSelector selector1 combinator selector2.

End cssSelectorBuilder.


(** ** The six part-adding operations as data

    A build chain is a list of calls on one selector; the six methods are
    named by the category of the part they add. *)

Inductive part := Element | Id | Class | Attr | PseudoClass | PseudoElement.

Definition part_eqb (p q : part) : bool :=
  match p, q with
  | Element, Element | Id, Id | Class, Class | Attr, Attr
  | PseudoClass, PseudoClass | PseudoElement, PseudoElement => true
  | _, _ => false
  end.

(** The method of [MySelector.prototype] that adds a part of category [p]. *)
Definition invoke (p : part) : loc -> string -> M loc :=
  match p with
  | Element => MySelector_prototype.element
  | Id => MySelector_prototype.id
  | Class => MySelector_prototype.class
  | Attr => MySelector_prototype.attr
  | PseudoClass => MySelector_prototype.pseudoClass
  | PseudoElement => MySelector_prototype.pseudoElement
  end.

(** The entry method of the facade for category [p]. *)
Definition builder (p : part) : string -> M loc :=
  match p with
  | Element => cssSelectorBuilder.element
  | Id => cssSelectorBuilder.id
  | Class => cssSelectorBuilder.class
  | Attr => cssSelectorBuilder.attr
  | PseudoClass => cssSelectorBuilder.pseudoClass
  | PseudoElement => cssSelectorBuilder.pseudoElement
  end.

(** The rank of a category, the property it is stored in, and the
    assignment that stores it. *)
Definition rank (p : part) : nat :=
  match p with
  | Element => 1 | Id => 2 | Class => 3
  | Attr => 4 | PseudoClass => 5 | PseudoElement => 6
  end.

Definition prop_of (p : part) : prop :=
  match p with
  | Element => p_el | Id => p_idValue | Class => p_cls
  | Attr => p_attrValue | PseudoClass => p_psdCls | PseudoElement => p_psdEl
  end.

Definition put (p : part) (v : string) : MySelector -> MySelector :=
  match p with
  | Element => set_el v | Id => set_idValue v | Class => push_cls v
  | Attr => push_attrValue v | PseudoClass => push_psdCls v
  | PseudoElement => set_psdEl v
  end.

Definition singular (p : part) : bool :=
  match p with
  | Element | Id | PseudoElement => true
  | Class | Attr | PseudoClass => false
  end.

(** [s.m1(v1).m2(v2)...]: every call is made on what the previous one
    returned. *)
Fixpoint chain (ops : list (part * string)) (this : loc) : M loc :=
  match ops with
  | [] => ret this
  | (p, v) :: ops' => do s <- invoke p this v; chain ops' s
  end.

(** A program using the module is a sequence of calls of its public
    operations; an error thrown by one of them is caught and the program
    goes on in the store the failed call left. *)
Inductive call :=
  | CallPart (p : part) (this : loc) (v : string)
  | CallStringify (fuel : nat) (this : loc)
  | CallBuilder (p : part) (v : string)
  | CallCombine (selector1 : loc) (combinator : string) (selector2 : loc).

Definition run_call (k : call) (h : heap) : heap :=
  match k with
  | CallPart p this v => snd (invoke p this v h)
  | CallStringify fuel this => snd (stringify fuel this h)
  | CallBuilder p v => snd (builder p v h)
  | CallCombine l1 t l2 => snd (cssSelectorBuilder.combine l1 t l2 h)
  end.

Definition run_calls (ks : list call) (h : heap) : heap :=
  fold_left (fun h' k => run_call k h') ks h.

(** The part-adding calls of a program that are made on the object [l]. *)
Definition on_selector (l : loc) (k : call) : bool :=
  match k with
  | CallPart _ this _ => Nat.eqb this l
  | _ => false
  end.

Definition calls_on (l : loc) (ks : list call) : list call :=
  List.filter (on_selector l) ks.

(** The same call made [n] times in a row. *)
Fixpoint repeatedly {A} (n : nat) (m : M A) : M (list A) :=
  match n with
  | 0 => ret []
  | S n' => do a <- m; do rest <- repeatedly n' m; ret (a :: rest)
  end.

Definition outcome_map {A B} (f : A -> B) (r : outcome A) : outcome B :=
  match r with
  | Ok a => Ok (f a)
  | Throw e => Throw e
  | Undetermined => Undetermined
  end.

(** ** What the specification says a chain renders to *)

Definition tokens (p : part) (ops : list (part * string)) : list string :=
  map snd (List.filter (fun o => part_eqb (fst o) p) ops).

Fixpoint nondecreasing (l : list nat) : bool :=
  match l with
  | a :: (b :: _) as t => (a <=? b) && nondecreasing t
  | _ => true
  end.

Definition at_most_once (p : part) (ops : list (part * string)) : bool :=
  length (tokens p ops) <=? 1.

(** A valid chain: ranks never decrease and element, id and pseudo-element
    are each used at most once. *)
Definition valid_ops (ops : list (part * string)) : bool :=
  nondecreasing (map (fun o => rank (fst o)) ops)
  && at_most_once Element ops && at_most_once Id ops
  && at_most_once PseudoElement ops.

Definition wrap (p : part) (token : string) : string :=
  match p with
  | Element => token
  | Id => "#" +:+ token
  | Class => "." +:+ token
  | Attr => "[" +:+ token +:+ "]"
  | PseudoClass => ":" +:+ token
  | PseudoElement => "::" +:+ token
  end.

Definition categories : list part :=
  [Element; Id; Class; Attr; PseudoClass; PseudoElement].

(** The rendering as the specification words it: every part that was added
    is present. *)
Definition rendering_as_specified (ops : list (part * string)) : string :=
  join (flat_map (fun p => map (wrap p) (tokens p ops)) categories).

(** The rendering of the program: element, id and pseudo-element are
    present when their token is not the empty string. *)
Definition present (p : part) (token : string) : bool :=
  negb (singular p && is_empty token).

Definition rendering (ops : list (part * string)) : string :=
  join (flat_map (fun p => map (wrap p) (List.filter (present p) (tokens p ops)))
          categories).

(** Every element, id and pseudo-element of the chain has a token that is
    not the empty string. *)
Definition singular_tokens_nonempty (ops : list (part * string)) : bool :=
  forallb (fun o => present (fst o) (snd o)) ops.

(** The fields of a selector on which the calls [ops] were made, in that
    order, when all of them returned. *)
Definition state_of (ops : list (part * string)) : MySelector :=
  mkMySelector
    (join (tokens Element ops)) (join (tokens Id ops))
    (tokens Class ops) (tokens Attr ops) (tokens PseudoClass ops)
    (join (tokens PseudoElement ops))
    (List.last (map (fun o => rank (fst o)) ops) 0).

(** ** Stores in which every combined selector was built from selectors
       that existed before it *)

Definition built_before (l : loc) (o : object) : bool :=
  match o with
  | OSelector _ => true
  | OCombined k => (s1 k <? l) && (s2 k <? l)
  end.

Fixpoint well_built_from (l : loc) (h : heap) : bool :=
  match h with
  | [] => true
  | o :: h' => built_before l o && well_built_from (S l) h'
  end.

Definition well_built (h : heap) : bool := well_built_from 0 h.

(** A program hands [combine] objects it holds, so both references exist
    when the call is made. *)
Definition call_admissible (k : call) (h : heap) : bool :=
  match k with
  | CallCombine l1 _ l2 => (l1 <? length h) && (l2 <? length h)
  | _ => true
  end.

Fixpoint calls_admissible (ks : list call) (h : heap) : bool :=
  match ks with
  | [] => true
  | k :: ks' => call_admissible k h && calls_admissible ks' (run_call k h)
  end.

(** The programs of the examples. *)
Definition div_main_plus_table_data : M loc :=
  do a <- cssSelectorBuilder.element "div";
  do a' <- MySelector_prototype.id a "main";
  do b <- cssSelectorBuilder.element "table";
  do b' <- MySelector_prototype.id b "data";
  cssSelectorBuilder.combine a' "+" b'.

Definition nested_example : M loc :=
  do a <- cssSelectorBuilder.element "div";
  do a <- MySelector_prototype.id a "main";
  do a <- MySelector_prototype.class a "container";
  do a <- MySelector_prototype.class a "draggable";
  do b <- cssSelectorBuilder.element "table";
  do b <- MySelector_prototype.id b "data";
  do d <- cssSelectorBuilder.element "tr";
  do d <- MySelector_prototype.pseudoClass d "nth-of-type(even)";
  do e <- cssSelectorBuilder.element "td";
  do e <- MySelector_prototype.pseudoClass e "nth-of-type(even)";
  do de <- cssSelectorBuilder.combine d " " e;
  do bde <- cssSelectorBuilder.combine b "~" de;
  cssSelectorBuilder.combine a "+" bde.

(** ** Rectangle *)

(** A JavaScript number is an IEEE 754 binary64 value. *)
Record Rectangle := mkRectangle {
  width : float;
  height : float;
  getArea : unit -> float
}.

(** [new Rectangle(width, height)]: the closure stored in [getArea] keeps
    the two arguments of the constructor. *)
Definition new_Rectangle (width height : float) : Rectangle :=
  mkRectangle width height (fun _ => (width * height)%float).

(** ** getJSON and fromJSON *)

(** The plain structures that [JSON.stringify] takes and [JSON.parse]
    builds: objects keep their fields in insertion order. *)
#[local] Unset Elimination Schemes.
Inductive jsvalue :=
  | JUndefined
  | JNull
  | JBool (b : bool)
  | JNumber (x : float)
  | JString (s : string)
  | JArray (items : list jsvalue)
  | JObject (fields : list (string * jsvalue)).
#[local] Set Elimination Schemes.

Definition is_object (v : jsvalue) : bool :=
  match v with
  | JArray _ | JObject _ => true
  | _ => false
  end.

Definition field_names (v : jsvalue) : list string :=
  match v with
  | JObject fields => map fst fields
  | _ => []
  end.

Fixpoint own_field (fields : list (string * jsvalue)) (name : string) : option jsvalue :=
  match fields with
  | [] => None
  | (n, v) :: rest => if String.eqb n name then Some v else own_field rest name
  end.

Definition is_primitive (v : jsvalue) : bool :=
  match v with
  | JBool _ | JNumber _ | JString _ => true
  | _ => false
  end.

(** The own properties of an array are its items, under the decimal names
    of their positions, and [length]. *)
Definition index_name (i : nat) : string :=
  NilEmpty.string_of_uint (Nat.to_uint i).

Fixpoint number_of_nat (n : nat) : float :=
  match n with
  | 0 => 0%float
  | S n' => (number_of_nat n' + 1)%float
  end.

Fixpoint item_named (items : list jsvalue) (i : nat) (name : string) : option jsvalue :=
  match items with
  | [] => None
  | x :: rest =>
      if String.eqb (index_name i) name then Some x
      else item_named rest (S i) name
  end.

Definition array_property (items : list jsvalue) (name : string) : option jsvalue :=
  if String.eqb name "length" then Some (JNumber (number_of_nat (length items)))
  else item_named items 0 name.

(** The own property [name] of an object or an array. *)
Definition own_property (v : jsvalue) (name : string) : option jsvalue :=
  match v with
  | JObject fields => own_field fields name
  | JArray items => array_property items name
  | _ => None
  end.

Section Host.

(** Prototype objects and what a property lookup that starts at one of
    them finds. *)
Variable Proto : Type.
Variable Method : Type.
Variable method_of : Proto -> string -> option Method.

(** What a lookup finds that starts at the built-in prototype of the kind
    of a value (for a number, string or boolean, at its wrapper). *)
Variable builtin_of : jsvalue -> string -> outcome (option Method).

(** The serializer and the parser of the host. *)
Variable JSON_stringify : jsvalue -> outcome string.
Variable JSON_parse : string -> outcome jsvalue.

(** Where the method-resolution chain of a value starts: at the built-in
    prototype of its kind, or at a prototype object that was set. *)
Inductive link :=
  | Builtin
  | Given (proto : Proto).

Record instance := mkInstance {
  plain : jsvalue;
  prototype : link
}.

(** [Object.setPrototypeOf(obj, proto)], for [proto] an object: throws on
    [null] and [undefined], leaves other primitives as they are, and sets
    the prototype of an object. *)
Definition Object_setPrototypeOf (obj : instance) (proto : Proto) : outcome instance :=
  match plain obj with
  | JUndefined | JNull => Throw TypeError
  | JBool _ | JNumber _ | JString _ => Ok obj
  | JArray _ | JObject _ => Ok (mkInstance (plain obj) (Given proto))
  end.

Definition getJSON (obj : jsvalue) : outcome string :=
  JSON_stringify obj.

Definition fromJSON (proto : Proto) (json : string) : outcome instance :=
  match JSON_parse json with
  | Ok v =>
      let obj := mkInstance v Builtin in
      match Object_setPrototypeOf obj proto with
      | Ok obj' => Ok obj'
      | Throw e => Throw e
      | Undetermined => Undetermined
      end
  | Throw e => Throw e
  | Undetermined => Undetermined
  end.

(** [fromJSON(proto, getJSON(obj))] *)
Definition decode_encoded (proto : Proto) (obj : jsvalue) : outcome instance :=
  match getJSON obj with
  | Ok json => fromJSON proto json
  | Throw e => Throw e
  | Undetermined => Undetermined
  end.

(** [obj.name]: on [null] and [undefined] it throws; on an object or an
    array an own property wins, otherwise the lookup goes on where the
    method-resolution chain of the object starts; on any other primitive it
    starts at the built-in prototype. *)
Inductive resolved :=
  | OwnField (v : jsvalue)
  | Inherited (m : Method).

Definition resolve (obj : instance) (name : string) : outcome (option resolved) :=
  match plain obj with
  | JUndefined | JNull => Throw TypeError
  | JObject _ | JArray _ =>
      match own_property (plain obj) name with
      | Some x => Ok (Some (OwnField x))
      | None =>
          match prototype obj with
          | Given proto => Ok (option_map Inherited (method_of proto name))
          | Builtin =>
              outcome_map (option_map Inherited) (builtin_of (plain obj) name)
          end
      end
  | JBool _ | JNumber _ | JString _ =>
      outcome_map (option_map Inherited) (builtin_of (plain obj) name)
  end.

End Host.

Arguments Builtin {Proto}.
Arguments Given {Proto} proto.
Arguments mkInstance {Proto} plain prototype.
Arguments plain {Proto} i.
Arguments prototype {Proto} i.
Arguments OwnField {Method} v.
Arguments Inherited {Method} m.

(** The host's [JSON.parse] and [JSON.stringify] at the texts and values of
    the examples; the table says nothing about any other. *)
Definition radius_json : string := "{" +:+ dq +:+ "radius" +:+ dq +:+ ":10}".

Definition JSON_parse_table (text : string) : outcome jsvalue :=
  if String.eqb text "null" then Ok JNull
  else if String.eqb text "true" then Ok (JBool true)
  else if String.eqb text "[1,2]" then Ok (JArray [JNumber 1; JNumber 2])
  else if String.eqb text "{}" then Ok (JObject [])
  else if String.eqb text radius_json then Ok (JObject [("radius", JNumber 10)])
  else Undetermined.

Definition JSON_stringify_table (v : jsvalue) : outcome string :=
  match v with
  | JNull => Ok "null"
  | JObject [] => Ok "{}"
  | JObject [(_, JUndefined)] => Ok "{}"
  | JObject [(name, JNumber x)] =>
      if String.eqb name "radius" && PrimFloat.eqb x 10
      then Ok radius_json else Undetermined
  | _ => Undetermined
  end.

(** A table of the built-in prototypes that says nothing. *)
Definition builtin_table (v : jsvalue) (name : string) : outcome (option nat) :=
  Undetermined.

(** A prototype in the way of [Circle.prototype], with one method. *)
Definition Circle_prototype : list (string * nat) := [("getArea", 0)].

Definition Circle_method_of (proto : list (string * nat)) (name : string) : option nat :=
  match List.filter (fun m => String.eqb (fst m) name) proto with
  | [] => None
  | m :: _ => Some (snd m)
  end.

(** ** The chains that the program accepts *)

(** The fields after the calls [ops], when all of them returned: an
    element, id or pseudo-element field holds the token of the last call of
    its category. *)
Definition final_state (ops : list (part * string)) : MySelector :=
  mkMySelector
    (List.last (tokens Element ops) "") (List.last (tokens Id ops) "")
    (tokens Class ops) (tokens Attr ops) (tokens PseudoClass ops)
    (List.last (tokens PseudoElement ops) "")
    (List.last (map (fun o => rank (fst o)) ops) 0).

(** Every token of category [p] but the last one is the empty string. *)
Definition earlier_tokens_empty (p : part) (ops : list (part * string)) : bool :=
  forallb is_empty (removelast (tokens p ops)).

Definition accepted (ops : list (part * string)) : bool :=
  nondecreasing (map (fun o => rank (fst o)) ops)
  && earlier_tokens_empty Element ops && earlier_tokens_empty Id ops
  && earlier_tokens_empty PseudoElement ops.

(** The two tests of [check], on the fields [s], for a part of category
    [p]. *)
Definition passes_check (s : MySelector) (p : part) : bool :=
  negb (nonempty_string (get s (prop_of p))) && (order s <=? rank p).

Definition check_error (s : MySelector) (p : part) : error :=
  if nonempty_string (get s (prop_of p))
  then DuplicateSingularPartError else OrderViolationError.

(** ** What the calls keep *)

(** The field of category [p] holds something: a non-empty string, or an
    array with an item. *)
Definition holds (s : MySelector) (p : part) : bool :=
  match get s (prop_of p) with
  | VString x => negb (is_empty x)
  | VArray a => match a with [] => false | _ :: _ => true end
  end.

(** [order] is one of the ranks or 0, and has reached the rank of every
    part that the selector holds. *)
Definition parts_below_order (s : MySelector) : bool :=
  (order s <=? 6)
  && forallb (fun p => negb (holds s p) || (rank p <=? order s)) categories.

Definition store_ordered (h : heap) : bool :=
  forallb (fun o => match o with
                    | OSelector s => parts_below_order s
                    | OCombined _ => true
                    end) h.

(** [a] is an initial segment of [b]. *)
Fixpoint starts_with (a b : list string) : bool :=
  match a, b with
  | [], _ => true
  | x :: a', y :: b' => String.eqb x y && starts_with a' b'
  | _ :: _, [] => false
  end.

(** A singular field that held a non-empty string holds it still. *)
Definition kept (x y : string) : bool := is_empty x || String.eqb x y.

(** [s'] is [s] after more parts were added. *)
Definition extends (s s' : MySelector) : bool :=
  (order s <=? order s')
  && starts_with (cls s) (cls s')
  && starts_with (attrValue s) (attrValue s')
  && starts_with (psdCls s) (psdCls s')
  && kept (el s) (el s') && kept (idValue s) (idValue s')
  && kept (psdEl s) (psdEl s').

(** ** Assignments to the fields of a Rectangle *)

(** [r.width = w] and [r.height = h]: an assignment replaces the field and
    leaves the other properties of the object, the closure in [getArea]
    among them, as they are. *)
Definition assign_width (w : float) (r : Rectangle) : Rectangle :=
  mkRectangle w (height r) (getArea r).

Definition assign_height (h : float) (r : Rectangle) : Rectangle :=
  mkRectangle (width r) h (getArea r).

Inductive field_assignment :=
  | AssignWidth (w : float)
  | AssignHeight (h : float).

Definition assign_field (a : field_assignment) (r : Rectangle) : Rectangle :=
  match a with
  | AssignWidth w => assign_width w r
  | AssignHeight h => assign_height h r
  end.

(** The assignments [xs], made one after the other. *)
Definition assign_fields (xs : list field_assignment) (r : Rectangle) : Rectangle :=
  fold_left (fun r' a => assign_field a r') xs r.

(** * Properties *)

(** ** One call of a part-adding method *)

Lemma invoke_unfold (p : part) (this : loc) (v : string) :
  invoke p this v
  = (MySelector_prototype.check this (prop_of p) (rank p) ;;
     assign this (put p v) ;; ret this).
Proof. destruct p; reflexivity. Qed.

Lemma this_selector_at (h : heap) (this : loc) (s : MySelector) :
  h !! this = Some (OSelector s) -> this_selector this h = (Ok s, h).
Proof. intros H. unfold this_selector, bind, deref. rewrite H. reflexivity. Qed.

Lemma assign_at (h : heap) (this : loc) (s : MySelector) upd :
  h !! this = Some (OSelector s) ->
  assign this upd h = (Ok tt, <[this := OSelector (upd s)]> h).
Proof.
  intros H. unfold assign, bind at 1. rewrite (this_selector_at h this s H).
  reflexivity.
Qed.

(** What a call does on a selector: the duplicate test comes first, the
    order test second, and only then is anything written. *)
Lemma invoke_at (h : heap) (p : part) (this : loc) (v : string) (s : MySelector) :
  h !! this = Some (OSelector s) ->
  invoke p this v h =
    if nonempty_string (get s (prop_of p)) then (Throw DuplicateSingularPartError, h)
    else if rank p <? order s then (Throw OrderViolationError, h)
    else (Ok this, <[this := OSelector (put p v (set_order (rank p) s))]> h).
Proof.
  intros H. rewrite invoke_unfold.
  unfold MySelector_prototype.check, bind at 1 2.
  rewrite (this_selector_at h this s H).
  destruct (nonempty_string (get s (prop_of p))); [reflexivity |].
  destruct (rank p <? order s); [reflexivity |].
  rewrite (assign_at h this s _ H).
  assert (Hlt : this < length h) by (eapply lookup_lt_Some; eauto).
  unfold bind.
  erewrite assign_at by (apply list_lookup_insert_eq; exact Hlt).
  unfold ret. f_equal. apply list_insert_insert_eq.
Qed.

(** Called on anything but a selector, the method is not there. *)
Lemma invoke_elsewhere (h : heap) (p : part) (this : loc) (v : string) :
  (forall s, h !! this <> Some (OSelector s)) ->
  invoke p this v h = (Throw TypeError, h).
Proof.
  intros H. rewrite invoke_unfold.
  unfold MySelector_prototype.check, bind at 1 2.
  unfold this_selector, bind, deref.
  destruct (h !! this) as [[s | k] |] eqn:E; try reflexivity.
  exfalso. exact (H s eq_refl).
Qed.

Lemma invoke_other (h : heap) (p : part) (this other : loc) (v : string) :
  this <> other -> snd (invoke p this v h) !! other = h !! other.
Proof.
  intros Hne.
  destruct (h !! this) as [[s | k] |] eqn:E.
  - rewrite (invoke_at h p this v s E).
    destruct (nonempty_string _); [reflexivity |].
    destruct (rank p <? order s); [reflexivity |].
    simpl. apply list_lookup_insert_ne. exact Hne.
  - rewrite invoke_elsewhere; [reflexivity | congruence].
  - rewrite invoke_elsewhere; [reflexivity | congruence].
Qed.

(** The facade allocates, then calls the method on the new object; on an
    object that [new MySelector()] has just made the call cannot fail. *)
Lemma builder_unfold (p : part) (v : string) :
  builder p v = (do s <- new_MySelector; invoke p s v).
Proof. destruct p; reflexivity. Qed.

Lemma builder_at (h : heap) (p : part) (v : string) :
  builder p v h =
    (Ok (length h),
     h ++ [OSelector (put p v (set_order (rank p) empty_selector))]).
Proof.
  rewrite builder_unfold. unfold bind, new_MySelector, alloc.
  rewrite (invoke_at _ p (length h) v empty_selector)
    by (apply list_lookup_middle; reflexivity).
  replace (nonempty_string (get empty_selector (prop_of p))) with false
    by (destruct p; reflexivity).
  replace (rank p <? order empty_selector) with false
    by (destruct p; reflexivity).
  f_equal. etransitivity; [apply insert_app_r_alt; lia |].
  rewrite Nat.sub_diag. reflexivity.
Qed.

(** ** stringify reads and never writes *)

Lemma selector_stringify_heap (this : loc) (h : heap) :
  snd (MySelector_prototype.stringify this h) = h.
Proof.
  unfold MySelector_prototype.stringify, bind, this_selector, bind, deref.
  destruct (h !! this) as [[s | k] |]; reflexivity.
Qed.

Lemma stringify_heap (fuel : nat) (this : loc) (h : heap) :
  snd (stringify fuel this h) = h.
Proof.
  revert this. induction fuel as [| fuel IH]; intros this; [reflexivity |].
  simpl. unfold bind at 1. unfold deref.
  destruct (h !! this) as [[s | k] |]; [apply selector_stringify_heap | | reflexivity].
  unfold bind.
  pose proof (IH (s1 k)) as H1. destruct (stringify fuel (s1 k) h) as [[a | e |] h1];
    simpl in H1; subst h1; try reflexivity.
  pose proof (IH (s2 k)) as H2. destruct (stringify fuel (s2 k) h) as [[b | e |] h2];
    simpl in H2; subst h2; reflexivity.
Qed.

Lemma stringify_eta (fuel : nat) (this : loc) (h : heap) :
  stringify fuel this h = (fst (stringify fuel this h), h).
Proof.
  rewrite <- (stringify_heap fuel this h) at 3.
  destruct (stringify fuel this h); reflexivity.
Qed.

Lemma stringify_selector (fuel : nat) (this : loc) (h : heap) (s : MySelector) :
  h !! this = Some (OSelector s) ->
  stringify (S fuel) this h = (Ok (selector_text s), h).
Proof.
  intros H. simpl. unfold bind at 1. unfold deref. rewrite H.
  unfold MySelector_prototype.stringify, bind.
  rewrite (this_selector_at h this s H). reflexivity.
Qed.

(** The examples of the source and of the specification. *)
Example id_class_class :
  fst ((do s <- cssSelectorBuilder.id "main";
        do s <- MySelector_prototype.class s "container";
        do s <- MySelector_prototype.class s "editable";
        stringify 1 s) [])
  = Ok "#main.container.editable".
Proof. reflexivity. Qed.

Example class_class :
  fst ((do s <- cssSelectorBuilder.class "a";
        do s <- MySelector_prototype.class s "b";
        stringify 1 s) [])
  = Ok ".a.b".
Proof. reflexivity. Qed.

Example element_twice :
  fst ((do s <- cssSelectorBuilder.element "a";
        do s <- MySelector_prototype.id s "b";
        MySelector_prototype.element s "c") [])
  = Throw DuplicateSingularPartError.
Proof. reflexivity. Qed.

Example id_then_element :
  fst ((do s <- cssSelectorBuilder.id "x";
        MySelector_prototype.element s "y") [])
  = Throw OrderViolationError.
Proof. reflexivity. Qed.

(** ** Failing calls *)

(** C9. Error atomicity: when one of the six part-adding methods throws,
    whatever the error, the store after the call is the store before it;
    the six part fields and [order] of the selector (and every other
    object) are as they were. *)
Theorem failed_call_changes_nothing
  (p : part) (this : loc) (v : string) (h h' : heap) (e : error) :
  invoke p this v h = (Throw e, h') -> h' = h.
Proof.
  destruct (h !! this) as [[s | k] |] eqn:E.
  - rewrite (invoke_at h p this v s E).
    destruct (nonempty_string _); [congruence |].
    destruct (rank p <? order s); congruence.
  - rewrite invoke_elsewhere; congruence.
  - rewrite invoke_elsewhere; congruence.
Qed.

(** [element('a').id('b')] and then [.element('c')] on the same object. *)
Lemma failed_call_changes_nothing_witness :
  snd (invoke Element 0 "c"
         [OSelector (mkMySelector "a" "b" [] [] [] "" 2)])
  = [OSelector (mkMySelector "a" "b" [] [] [] "" 2)].
Proof.
  exact (failed_call_changes_nothing Element 0 "c"
           [OSelector (mkMySelector "a" "b" [] [] [] "" 2)] _
           DuplicateSingularPartError eq_refl).
Defined.

(** C3, as the program has it.  On a selector whose [order] is above the
    rank of the part, the call throws and changes nothing: the duplicate
    error when the part is an element, id or pseudo-element whose field
    already holds a non-empty string (that test comes first), the order
    error otherwise.  A class, attribute or pseudo-class whose rank equals
    [order] is accepted.  Every call that returns leaves [order] at the
    rank of the part it added. *)
Theorem order_check
  (h : heap) (p : part) (this : loc) (v : string) (s : MySelector) :
  h !! this = Some (OSelector s) ->
  (rank p < order s ->
     invoke p this v h =
       (Throw (if nonempty_string (get s (prop_of p))
               then DuplicateSingularPartError else OrderViolationError), h))
  /\ (rank p = order s -> singular p = false ->
        invoke p this v h =
          (Ok this, <[this := OSelector (put p v s)]> h))
  /\ (forall l h', invoke p this v h = (Ok l, h') ->
        l = this
        /\ h' !! this = Some (OSelector (put p v (set_order (rank p) s)))
        /\ order (put p v (set_order (rank p) s)) = rank p).
Proof.
  intros H. rewrite (invoke_at h p this v s H).
  assert (Hlt : this < length h) by (eapply lookup_lt_Some; eauto).
  split; [| split].
  - intros Hr. apply Nat.ltb_lt in Hr. rewrite Hr.
    destruct (nonempty_string _); reflexivity.
  - intros Hr Hs.
    replace (nonempty_string (get s (prop_of p))) with false
      by (destruct p; simpl in *; congruence).
    rewrite Hr, Nat.ltb_irrefl. do 3 f_equal.
    destruct s; reflexivity.
  - intros l h'.
    destruct (nonempty_string _); [congruence |].
    destruct (rank p <? order s); [congruence |].
    intros Heq. injection Heq as <- <-.
    split; [reflexivity |]. split.
    + apply list_lookup_insert_eq. exact Hlt.
    + destruct p; reflexivity.
Qed.

(** [id('x').element('y')] throws the order error. *)
Lemma order_check_witness :
  invoke Element 0 "y" (snd (cssSelectorBuilder.id "x" []))
  = (Throw OrderViolationError, snd (cssSelectorBuilder.id "x" [])).
Proof.
  exact (proj1 (order_check (snd (cssSelectorBuilder.id "x" [])) Element 0 "y"
                  (mkMySelector "" "x" [] [] [] "" 2) eq_refl)
           (le_n 2)).
Defined.

(** C3 as stated fails: after [element('a').id('b')] the rank of an
    element, 1, is below [order], 2, and [.element('c')] throws the
    duplicate error, not the order error. *)
Lemma order_check_counterexample :
  let h := snd ((do s <- cssSelectorBuilder.element "a";
                 MySelector_prototype.id s "b") []) in
  h !! 0 = Some (OSelector (mkMySelector "a" "b" [] [] [] "" 2))
  /\ rank Element < 2
  /\ fst (MySelector_prototype.element 0 "c" h) = Throw DuplicateSingularPartError
  /\ fst (MySelector_prototype.element 0 "c" h) <> Throw OrderViolationError.
Proof.
  cbv zeta. split; [reflexivity |]. split; [simpl; lia |].
  split; [reflexivity | discriminate].
Qed.

(** ** A singular part is set once *)

Lemma put_keeps_set (p p' : part) (v : string) (n : nat) (s : MySelector) :
  singular p = true ->
  nonempty_string (get s (prop_of p)) = true ->
  nonempty_string (get s (prop_of p')) = false ->
  get (put p' v (set_order n s)) (prop_of p) = get s (prop_of p).
Proof.
  intros Hs Hp Hp'. destruct p, p'; simpl in *; congruence.
Qed.

Lemma run_call_keeps_set (k : call) (h : heap) (this : loc) (s : MySelector) (p : part) :
  h !! this = Some (OSelector s) ->
  singular p = true ->
  nonempty_string (get s (prop_of p)) = true ->
  exists s', run_call k h !! this = Some (OSelector s')
             /\ get s' (prop_of p) = get s (prop_of p).
Proof.
  intros H Hs Hp.
  destruct k as [p' l v | fuel l | p' v | l1 t l2]; simpl.
  - destruct (decide (l = this)) as [-> | Hne].
    + rewrite (invoke_at h p' this v s H).
      destruct (nonempty_string (get s (prop_of p'))) eqn:E; [eauto |].
      destruct (rank p' <? order s); [eauto |].
      simpl. eexists. split.
      * apply list_lookup_insert_eq. eapply lookup_lt_Some; eauto.
      * apply put_keeps_set; assumption.
    + rewrite invoke_other by exact Hne. eauto.
  - rewrite stringify_heap. eauto.
  - rewrite builder_at. simpl. exists s. split; [| reflexivity].
    apply lookup_app_l_Some. exact H.
  - exists s. split; [| reflexivity]. apply lookup_app_l_Some. exact H.
Qed.

Lemma run_calls_keep_set (ks : list call) (h : heap) (this : loc) (s : MySelector) (p : part) :
  h !! this = Some (OSelector s) ->
  singular p = true ->
  nonempty_string (get s (prop_of p)) = true ->
  exists s', run_calls ks h !! this = Some (OSelector s')
             /\ get s' (prop_of p) = get s (prop_of p).
Proof.
  revert h s. induction ks as [| k ks IH]; intros h s H Hs Hp; [simpl; eauto |].
  destruct (run_call_keeps_set k h this s p H Hs Hp) as (s' & H' & Hg).
  destruct (IH (run_call k h) s' H' Hs) as (s'' & H'' & Hg').
  - rewrite Hg. exact Hp.
  - exists s''. split; [exact H'' | congruence].
Qed.

(** The state of a selector after a program is the state that the
    part-adding calls made on it give, run on their own. *)
Lemma run_call_own (k : call) (h1 h2 : heap) (l : loc) (s : MySelector) :
  h1 !! l = Some (OSelector s) -> h2 !! l = Some (OSelector s) ->
  exists s', run_call k h1 !! l = Some (OSelector s')
             /\ run_calls (calls_on l [k]) h2 !! l = Some (OSelector s').
Proof.
  intros H1 H2. unfold calls_on.
  destruct k as [p this v | fuel this | p v | l1 t l2]; simpl.
  - destruct (Nat.eqb_spec this l) as [-> | Hne]; simpl.
    + rewrite (invoke_at h1 p l v s H1), (invoke_at h2 p l v s H2).
      destruct (nonempty_string (get s (prop_of p))); [eauto |].
      destruct (rank p <? order s); [eauto |].
      simpl. eexists. split; apply list_lookup_insert_eq; eapply lookup_lt_Some; eauto.
    + rewrite invoke_other by exact Hne. eauto.
  - rewrite stringify_heap. eauto.
  - rewrite builder_at. simpl. exists s. split; [| exact H2].
    apply lookup_app_l_Some. exact H1.
  - exists s. split; [| exact H2]. apply lookup_app_l_Some. exact H1.
Qed.

Lemma run_calls_own (ks : list call) (h1 h2 : heap) (l : loc) (s : MySelector) :
  h1 !! l = Some (OSelector s) -> h2 !! l = Some (OSelector s) ->
  exists s', run_calls ks h1 !! l = Some (OSelector s')
             /\ run_calls (calls_on l ks) h2 !! l = Some (OSelector s').
Proof.
  revert h1 h2 s. induction ks as [| k ks IH]; intros h1 h2 s H1 H2; [simpl; eauto |].
  destruct (run_call_own k h1 h2 l s H1 H2) as (s' & K1 & K2).
  destruct (IH (run_call k h1) (run_calls (calls_on l [k]) h2) s' K1 K2)
    as (s'' & L1 & L2).
  exists s''. split; [exact L1 |].
  change (k :: ks) with ([k] ++ ks). unfold calls_on in *.
  rewrite List.filter_app. unfold run_calls in *. rewrite fold_left_app. exact L2.
Qed.

(** C2, as the program has it.  Once [element], [id] or [pseudoElement]
    has returned on a selector with a value that is not the empty string,
    every later call of the same method on that selector, whatever else the
    program called in between and whether those calls returned or threw,
    throws the duplicate error and changes nothing.  When it has returned
    with the empty string, the field still counts as not set: the same
    method called next on that selector (whatever the program called on
    other objects in between), with any value, returns, and leaves that
    value in the field. *)
Theorem singular_part_set_once
  (p : part) (this l : loc) (v w : string) (h h' : heap) (ks : list call) :
  singular p = true ->
  invoke p this v h = (Ok l, h') ->
  (is_empty v = false ->
   invoke p this w (run_calls ks h')
   = (Throw DuplicateSingularPartError, run_calls ks h'))
  /\ (is_empty v = true ->
      calls_on this ks = [] ->
      exists s',
        invoke p this w (run_calls ks h')
        = (Ok this, <[this := OSelector s']> (run_calls ks h'))
        /\ get s' (prop_of p) = VString w
        /\ order s' = rank p).
Proof.
  intros Hs Hcall.
  destruct (h !! this) as [[s | k] |] eqn:E;
    [| rewrite invoke_elsewhere in Hcall; congruence
     | rewrite invoke_elsewhere in Hcall; congruence].
  rewrite (invoke_at h p this v s E) in Hcall.
  destruct (nonempty_string (get s (prop_of p))); [discriminate Hcall |].
  destruct (rank p <? order s); [discriminate Hcall |].
  injection Hcall as <- <-.
  assert (H' : <[this := OSelector (put p v (set_order (rank p) s))]> h !! this
               = Some (OSelector (put p v (set_order (rank p) s))))
    by (apply list_lookup_insert_eq; eapply lookup_lt_Some; eauto).
  split.
  - intros Hv.
    assert (Hp : nonempty_string (get (put p v (set_order (rank p) s)) (prop_of p)) = true).
    { destruct p; try discriminate Hs; destruct v; try discriminate Hv; reflexivity. }
    destruct (run_calls_keep_set ks _ this _ p H' Hs Hp) as (s' & H'' & Hg).
    rewrite (invoke_at _ p this w s' H''), Hg, Hp. reflexivity.
  - intros Hv Hks.
    destruct (run_calls_own ks _ _ this _ H' H') as (s' & K1 & K2).
    rewrite Hks in K2. simpl in K2. rewrite H' in K2. injection K2 as <-.
    exists (put p w (set_order (rank p) (put p v (set_order (rank p) s)))).
    rewrite (invoke_at _ p this w _ K1).
    replace (nonempty_string (get (put p v (set_order (rank p) s)) (prop_of p)))
      with false
      by (destruct p; try discriminate Hs; destruct v; try discriminate Hv;
          reflexivity).
    replace (rank p <? order (put p v (set_order (rank p) s))) with false
      by (destruct p; reflexivity).
    split; [reflexivity |].
    split; destruct p; try discriminate Hs; reflexivity.
Qed.

(** [element('a')], then [.id('b')], then [.element('c')]; and
    [pseudoElement('')], then [.pseudoElement('after')]. *)
Lemma singular_part_set_once_witness :
  invoke Element 0 "c"
    (run_calls [CallPart Id 0 "b"] (snd (cssSelectorBuilder.element "a" [])))
  = (Throw DuplicateSingularPartError,
     run_calls [CallPart Id 0 "b"] (snd (cssSelectorBuilder.element "a" [])))
  /\ exists s',
       invoke PseudoElement 0 "after"
         (run_calls [CallBuilder Class "x"; CallPart Class 1 "y"]
            (snd (cssSelectorBuilder.pseudoElement "" [])))
       = (Ok 0,
          <[0 := OSelector s']>
            (run_calls [CallBuilder Class "x"; CallPart Class 1 "y"]
               (snd (cssSelectorBuilder.pseudoElement "" []))))
       /\ get s' (prop_of PseudoElement) = VString "after"
       /\ order s' = rank PseudoElement.
Proof.
  split.
  - exact (proj1 (singular_part_set_once Element 0 0 "a" "c"
                    [OSelector empty_selector]
                    (snd (cssSelectorBuilder.element "a" []))
                    [CallPart Id 0 "b"] eq_refl eq_refl) eq_refl).
  - exact (proj2 (singular_part_set_once PseudoElement 0 0 "" "after"
                    [OSelector empty_selector]
                    (snd (cssSelectorBuilder.pseudoElement "" []))
                    [CallBuilder Class "x"; CallPart Class 1 "y"]
                    eq_refl eq_refl) eq_refl eq_refl).
Defined.

(** C2 as stated fails: [element('')] returns, and a second [element('a')]
    on the same object returns as well; so do [id('')] followed by
    [id('x')], and [pseudoElement('')] followed by [pseudoElement('y')]. *)
Lemma singular_part_set_once_counterexample :
  (do s <- cssSelectorBuilder.element ""; MySelector_prototype.element s "a") []
  = (Ok 0, [OSelector (mkMySelector "a" "" [] [] [] "" 1)])
  /\ (do s <- cssSelectorBuilder.id ""; MySelector_prototype.id s "x") []
     = (Ok 0, [OSelector (mkMySelector "" "x" [] [] [] "" 2)])
  /\ (do s <- cssSelectorBuilder.pseudoElement "";
      MySelector_prototype.pseudoElement s "y") []
     = (Ok 0, [OSelector (mkMySelector "" "" [] [] [] "y" 6)]).
Proof. repeat split. Qed.

(** ** Rendering is a read *)

Lemma repeatedly_ok {A} (m : M A) (h : heap) (a : A) (n : nat) :
  m h = (Ok a, h) -> repeatedly n m h = (Ok (repeat a n), h).
Proof.
  intros Hm. induction n as [| n IH]; [reflexivity |].
  simpl. unfold bind at 1. rewrite Hm.
  unfold bind. rewrite IH. reflexivity.
Qed.

(** C5. [stringify] on any node leaves the store as it found it; called
    any number of times in a row it yields the same string (or the same
    error) every time; and whatever the program calls next behaves as if
    the rendering had not taken place. *)
Theorem stringify_pure
  (fuel : nat) (this : loc) (h : heap) (n : nat) (ks : list call) :
  snd (stringify fuel this h) = h
  /\ repeatedly (S n) (stringify fuel this) h
     = (outcome_map (fun str => repeat str (S n)) (fst (stringify fuel this h)), h)
  /\ run_calls ks (snd (stringify fuel this h)) = run_calls ks h.
Proof.
  split; [apply stringify_heap |]. split; [| rewrite stringify_heap; reflexivity].
  pose proof (stringify_eta fuel this h) as E.
  destruct (fst (stringify fuel this h)) as [str | e |].
  - apply (repeatedly_ok _ _ _ (S n) E).
  - simpl. unfold bind at 1. rewrite E. reflexivity.
  - simpl. unfold bind at 1. rewrite E. reflexivity.
Qed.

(** ** Independent chains *)

Lemma chain_other (ops : list (part * string)) (h : heap) (this other : loc) :
  this <> other -> snd (chain ops this h) !! other = h !! other.
Proof.
  intros Hne. revert h. induction ops as [| [p v] ops IH]; intros h; [reflexivity |].
  simpl. unfold bind.
  pose proof (invoke_other h p this other v Hne) as Ho.
  destruct (h !! this) as [[s | k] |] eqn:E.
  - rewrite (invoke_at h p this v s E) in *.
    destruct (nonempty_string _); [reflexivity |].
    destruct (rank p <? order s); [reflexivity |].
    rewrite IH. exact Ho.
  - rewrite invoke_elsewhere by congruence. reflexivity.
  - rewrite invoke_elsewhere by congruence. reflexivity.
Qed.

Lemma stringify_selector_frame (fuel : nat) (l : loc) (h h' : heap) (s : MySelector) :
  h !! l = Some (OSelector s) -> h' !! l = Some (OSelector s) ->
  fst (stringify fuel l h') = fst (stringify fuel l h).
Proof.
  intros H H'. destruct fuel as [| fuel]; [reflexivity |].
  rewrite (stringify_selector fuel l h s H), (stringify_selector fuel l h' s H').
  reflexivity.
Qed.



(** ** Rectangle *)

(** C7. The object that [new Rectangle(width, height)] builds has the two
    arguments in its [width] and [height] fields, and its [getArea] returns
    their product. *)
Theorem Rectangle_fields_and_area (w h : float) :
  width (new_Rectangle w h) = w
  /\ height (new_Rectangle w h) = h
  /\ getArea (new_Rectangle w h) tt = (w * h)%float.
Proof. repeat split. Qed.

Example Rectangle_10_20 :
  getArea (new_Rectangle 10 20) tt = 200%float.
Proof. reflexivity. Qed.

(** ** Combined selectors *)

Lemma well_built_from_lookup (h : heap) (i l : nat) (k : MyCombinedSelector) :
  well_built_from i h = true -> h !! l = Some (OCombined k) ->
  s1 k < i + l /\ s2 k < i + l.
Proof.
  revert i l. induction h as [| o h IH]; intros i l Hw Hl; [discriminate |].
  simpl in Hw. apply andb_prop in Hw as [Ho Hw].
  destruct l as [| l]; simpl in Hl.
  - injection Hl as ->. simpl in Ho. apply andb_prop in Ho as [Ha Hb].
    apply Nat.ltb_lt in Ha, Hb. lia.
  - destruct (IH (S i) l Hw Hl). lia.
Qed.

Lemma well_built_from_app (h : heap) (i : nat) (o : object) :
  well_built_from i (h ++ [o])
  = well_built_from i h && built_before (i + length h) o.
Proof.
  revert i. induction h as [| o' h IH]; intros i; simpl.
  - rewrite Nat.add_0_r, andb_true_r. reflexivity.
  - rewrite IH, andb_assoc.
    replace (S i + length h) with (i + S (length h)) by lia. reflexivity.
Qed.

Lemma well_built_from_insert (h : heap) (i l : nat) (s : MySelector) :
  well_built_from i h = true ->
  well_built_from i (<[l := OSelector s]> h) = true.
Proof.
  revert i l. induction h as [| o h IH]; intros i l Hw; [exact Hw |].
  simpl in Hw. apply andb_prop in Hw as [Ho Hw].
  destruct l as [| l]; simpl.
  - exact Hw.
  - rewrite Ho. apply IH. exact Hw.
Qed.

Lemma run_call_well_built (k : call) (h : heap) :
  well_built h = true -> call_admissible k h = true ->
  well_built (run_call k h) = true.
Proof.
  unfold well_built. intros Hw Ha.
  destruct k as [p this v | fuel this | p v | l1 t l2]; simpl.
  - destruct (h !! this) as [[s | k] |] eqn:E.
    + rewrite (invoke_at h p this v s E).
      destruct (nonempty_string _); [exact Hw |].
      destruct (rank p <? order s); [exact Hw |].
      apply well_built_from_insert. exact Hw.
    + rewrite invoke_elsewhere by congruence. exact Hw.
    + rewrite invoke_elsewhere by congruence. exact Hw.
  - rewrite stringify_heap. exact Hw.
  - rewrite builder_at. simpl. rewrite well_built_from_app, Hw. reflexivity.
  - rewrite well_built_from_app, Hw. exact Ha.
Qed.

(** Every store that a program reaches from the empty one is well built. *)
Lemma reachable_well_built (ks : list call) (h : heap) :
  well_built h = true -> calls_admissible ks h = true ->
  well_built (run_calls ks h) = true.
Proof.
  revert h. induction ks as [| k ks IH]; intros h Hw Ha; [exact Hw |].
  simpl in Ha. apply andb_prop in Ha as [Hk Ha].
  simpl. apply IH; [apply run_call_well_built; assumption | exact Ha].
Qed.

Lemma stringify_combined (fuel : nat) (this : loc) (h : heap) (k : MyCombinedSelector) :
  h !! this = Some (OCombined k) ->
  stringify (S fuel) this h
  = (do left <- stringify fuel (s1 k);
     do right <- stringify fuel (s2 k);
     ret (left +:+ " " +:+ c k +:+ " " +:+ right)) h.
Proof.
  intros H. simpl. unfold bind at 1. unfold deref. rewrite H. reflexivity.
Qed.

(** In a well-built store every node renders, given fuel above its
    location, and objects allocated later do not change the result. *)
Lemma stringify_total (h : heap) :
  well_built h = true ->
  forall l, l < length h ->
  exists str, forall fuel ext,
    l < fuel -> stringify fuel l (h ++ ext) = (Ok str, h ++ ext).
Proof.
  intros Hw l. induction l as [l IH] using lt_wf_ind. intros Hl.
  destruct (lookup_lt_is_Some_2 h l Hl) as [o Ho].
  destruct o as [s | k].
  - exists (selector_text s). intros fuel ext Hf.
    destruct fuel as [| fuel]; [lia |].
    apply stringify_selector. apply lookup_app_l_Some. exact Ho.
  - destruct (well_built_from_lookup h 0 l k Hw Ho) as [H1 H2]. simpl in H1, H2.
    destruct (IH (s1 k) H1 ltac:(lia)) as [a Ha].
    destruct (IH (s2 k) H2 ltac:(lia)) as [b Hb].
    exists (a +:+ " " +:+ c k +:+ " " +:+ b). intros fuel ext Hf.
    destruct fuel as [| fuel]; [lia |].
    rewrite (stringify_combined fuel l _ k (lookup_app_l_Some h ext l _ Ho)).
    unfold bind. rewrite (Ha fuel ext) by lia. rewrite (Hb fuel ext) by lia.
    reflexivity.
Qed.

Lemma stringify_total_here (h : heap) (l : loc) :
  well_built h = true -> l < length h ->
  exists str, forall fuel, l < fuel -> stringify fuel l h = (Ok str, h).
Proof.
  intros Hw Hl. destruct (stringify_total h Hw l Hl) as [str H].
  exists str. intros fuel Hf. specialize (H fuel [] Hf).
  rewrite app_nil_r in H. exact H.
Qed.

(** C4. In a store where every combined selector was built from nodes that
    existed before it, [stringify] on a combined selector, with fuel
    enough for the store, is the rendering of its left child, a space, the
    combinator, a space, and the rendering of its right child, and all
    three renderings return. *)
Theorem combined_stringify
  (h : heap) (this : loc) (k : MyCombinedSelector) (fuel : nat) :
  well_built h = true ->
  h !! this = Some (OCombined k) ->
  length h <= fuel ->
  stringify fuel this h
  = (do left <- stringify fuel (s1 k);
     do right <- stringify fuel (s2 k);
     ret (left +:+ " " +:+ c k +:+ " " +:+ right)) h
  /\ exists left right,
       stringify fuel (s1 k) h = (Ok left, h)
       /\ stringify fuel (s2 k) h = (Ok right, h)
       /\ stringify fuel this h = (Ok (left +:+ " " +:+ c k +:+ " " +:+ right), h).
Proof.
  intros Hw Ho Hf.
  assert (Hl : this < length h) by (eapply lookup_lt_Some; eauto).
  destruct (well_built_from_lookup h 0 this k Hw Ho) as [H1 H2]. simpl in H1, H2.
  destruct (stringify_total_here h (s1 k) Hw ltac:(lia)) as [a Ha].
  destruct (stringify_total_here h (s2 k) Hw ltac:(lia)) as [b Hb].
  assert (Hthis : stringify fuel this h = (Ok (a +:+ " " +:+ c k +:+ " " +:+ b), h)).
  { destruct fuel as [| fuel]; [lia |].
    rewrite (stringify_combined fuel this h k Ho).
    unfold bind. rewrite (Ha fuel) by lia. rewrite (Hb fuel) by lia. reflexivity. }
  split.
  - rewrite Hthis. unfold bind. rewrite (Ha fuel) by lia. rewrite (Hb fuel) by lia.
    reflexivity.
  - exists a, b. split; [apply Ha; lia |]. split; [apply Hb; lia | exact Hthis].
Qed.

(** [combine(element('div').id('main'), '+', element('table').id('data'))]
    renders to [div#main + table#data]. *)
Lemma combined_stringify_witness :
  let h := snd (div_main_plus_table_data []) in
  stringify 3 2 h = (Ok "div#main + table#data", h).
Proof.
  exact (proj1 (combined_stringify (snd (div_main_plus_table_data [])) 2
                  (mkMyCombinedSelector 0 "+" 1) 3 eq_refl eq_refl (le_n 3))).
Defined.

(** The three-level example of the source. *)
Example nested_example_renders :
  fst ((do s <- nested_example; stringify 7 s) [])
  = Ok "div#main.container.draggable + table#data ~ tr:nth-of-type(even)   td:nth-of-type(even)".
Proof. reflexivity. Qed.

(** C10. [combine] validates nothing and cannot throw: for any two
    references and any string it allocates a combined selector holding
    them.  When the two references are nodes of a well-built store, the new
    node renders to the rendering of the first, a space, the token as given,
    a space, and the rendering of the second. *)
Theorem combine_never_fails
  (h : heap) (l1 l2 : loc) (t : string) (fuel : nat) :
  let node := OCombined (mkMyCombinedSelector l1 t l2) in
  cssSelectorBuilder.combine l1 t l2 h = (Ok (length h), h ++ [node])
  /\ (well_built h = true -> l1 < length h -> l2 < length h ->
      length h < fuel ->
      exists left right,
        stringify fuel l1 h = (Ok left, h)
        /\ stringify fuel l2 h = (Ok right, h)
        /\ stringify fuel (length h) (h ++ [node])
           = (Ok (left +:+ " " +:+ t +:+ " " +:+ right), h ++ [node])).
Proof.
  intros node. split; [reflexivity |]. intros Hw H1 H2 Hf.
  destruct (stringify_total h Hw l1 H1) as [a Ha].
  destruct (stringify_total h Hw l2 H2) as [b Hb].
  exists a, b.
  split; [specialize (Ha fuel [] ltac:(lia)); rewrite app_nil_r in Ha; exact Ha |].
  split; [specialize (Hb fuel [] ltac:(lia)); rewrite app_nil_r in Hb; exact Hb |].
  destruct fuel as [| fuel]; [lia |].
  rewrite (stringify_combined fuel (length h) _ (mkMyCombinedSelector l1 t l2))
    by (apply list_lookup_middle; reflexivity).
  unfold bind. simpl s1. simpl s2. simpl c.
  rewrite (Ha fuel [node]) by lia. rewrite (Hb fuel [node]) by lia. reflexivity.
Qed.

(** A token that is none of the four combinators. *)
Lemma combine_never_fails_witness :
  let h := snd ((cssSelectorBuilder.element "a" ;; cssSelectorBuilder.element "b") []) in
  exists left right,
    stringify 3 0 h = (Ok left, h)
    /\ stringify 3 1 h = (Ok right, h)
    /\ stringify 3 2 (h ++ [OCombined (mkMyCombinedSelector 0 "%%" 1)])
       = (Ok (left +:+ " " +:+ "%%" +:+ " " +:+ right),
          h ++ [OCombined (mkMyCombinedSelector 0 "%%" 1)]).
Proof.
  exact (proj2 (combine_never_fails
                  (snd ((cssSelectorBuilder.element "a" ;; cssSelectorBuilder.element "b") []))
                  0 1 "%%" 3)
           eq_refl (le_S _ _ (le_n 1)) (le_n 2) (le_n 3)).
Defined.

Example combine_unknown_token :
  fst ((do a <- cssSelectorBuilder.element "a";
        do b <- cssSelectorBuilder.element "b";
        do n <- cssSelectorBuilder.combine a "%%" b;
        stringify 3 n) [])
  = Ok "a %% b".
Proof. reflexivity. Qed.

(** ** Rendering a valid chain *)

Lemma append_empty_r (s : string) : s +:+ "" = s.
Proof.
  induction s as [| a s IH]; [reflexivity |].
  change (String a (s +:+ "") = String a s). f_equal. exact IH.
Qed.

Lemma append_assoc (s t u : string) : (s +:+ t) +:+ u = s +:+ t +:+ u.
Proof.
  induction s as [| a s IH]; [reflexivity |].
  change (String a ((s +:+ t) +:+ u) = String a (s +:+ t +:+ u)).
  f_equal. exact IH.
Qed.

Lemma join_cons (x : string) (xs : list string) : join (x :: xs) = x +:+ join xs.
Proof.
  unfold join. destruct xs as [| y ys]; simpl.
  - symmetry. apply append_empty_r.
  - reflexivity.
Qed.

Lemma join_app (xs ys : list string) : join (xs ++ ys) = join xs +:+ join ys.
Proof.
  induction xs as [| x xs IH]; [reflexivity |].
  rewrite <- app_comm_cons, !join_cons, IH, append_assoc. reflexivity.
Qed.

Lemma tokens_snoc (q p : part) (v : string) (ops : list (part * string)) :
  tokens q (ops ++ [(p, v)])
  = tokens q ops ++ (if part_eqb p q then [v] else []).
Proof.
  unfold tokens. rewrite List.filter_app, List.map_app. simpl.
  destruct (part_eqb p q); reflexivity.
Qed.

Lemma nondecreasing_snoc (l : list nat) (x : nat) :
  nondecreasing (l ++ [x]) = true ->
  nondecreasing l = true /\ List.last l 0 <= x.
Proof.
  induction l as [| a l IH]; [simpl; intros _; split; [reflexivity | lia] |].
  destruct l as [| b l].
  - simpl. intros H. apply andb_prop in H as [H _].
    apply Nat.leb_le in H. split; [reflexivity | exact H].
  - change (nondecreasing ((a :: b :: l) ++ [x]))
      with ((a <=? b) && nondecreasing ((b :: l) ++ [x])).
    intros H. apply andb_prop in H as [Hab H]. destruct (IH H) as [Hn Hl].
    split; [| exact Hl].
    change (nondecreasing (a :: b :: l)) with ((a <=? b) && nondecreasing (b :: l)).
    rewrite Hab, Hn. reflexivity.
Qed.

Lemma at_most_once_snoc (q p : part) (v : string) (ops : list (part * string)) :
  at_most_once q (ops ++ [(p, v)]) = true ->
  at_most_once q ops = true /\ (p = q -> tokens q ops = []).
Proof.
  unfold at_most_once. rewrite tokens_snoc, length_app. intros H.
  apply Nat.leb_le in H. split; [apply Nat.leb_le; lia |].
  intros ->. replace (part_eqb q q) with true in H by (destruct q; reflexivity).
  simpl in H. destruct (tokens q ops); [reflexivity | simpl in H; lia].
Qed.

Lemma valid_ops_snoc (ops : list (part * string)) (p : part) (v : string) :
  valid_ops (ops ++ [(p, v)]) = true ->
  valid_ops ops = true
  /\ order (state_of ops) <= rank p
  /\ (singular p = true -> tokens p ops = []).
Proof.
  unfold valid_ops. rewrite List.map_app. simpl. intros H.
  apply andb_prop in H as [H H6]. apply andb_prop in H as [H H2].
  apply andb_prop in H as [H0 H1].
  destruct (nondecreasing_snoc _ _ H0) as [Hn Hl].
  destruct (at_most_once_snoc _ _ _ _ H1) as [A1 T1].
  destruct (at_most_once_snoc _ _ _ _ H2) as [A2 T2].
  destruct (at_most_once_snoc _ _ _ _ H6) as [A6 T6].
  split; [rewrite Hn, A1, A2, A6; reflexivity |]. split; [exact Hl |].
  intros Hs. destruct p; try discriminate Hs; auto.
Qed.

Lemma state_of_snoc (ops : list (part * string)) (p : part) (v : string) :
  (singular p = true -> tokens p ops = []) ->
  put p v (set_order (rank p) (state_of ops)) = state_of (ops ++ [(p, v)]).
Proof.
  intros Hs. unfold state_of. rewrite !tokens_snoc, List.map_app.
  simpl (map _ [_]). rewrite List.last_last.
  destruct p; simpl; rewrite ?app_nil_r;
    try (rewrite (Hs eq_refl)); reflexivity.
Qed.

Lemma chain_app (ops ops' : list (part * string)) (this : loc) (h : heap) :
  chain (ops ++ ops') this h = (do s <- chain ops this; chain ops' s) h.
Proof.
  revert this h. induction ops as [| [p v] ops IH]; intros this h; [reflexivity |].
  simpl. unfold bind.
  destruct (invoke p this v h) as [[s | e |] h1]; [| reflexivity | reflexivity].
  rewrite IH. reflexivity.
Qed.

(** A chain that starts at the facade is the constructor followed by the
    whole chain. *)
Lemma builder_chain (p : part) (v : string) (ops : list (part * string)) (h : heap) :
  (do s <- builder p v; chain ops s) h
  = (do s <- new_MySelector; chain ((p, v) :: ops) s) h.
Proof.
  rewrite builder_unfold. unfold bind, new_MySelector, alloc. simpl.
  unfold bind. destruct (invoke p (length h) v _) as [[s | e |] h1]; reflexivity.
Qed.

(** On a selector fresh from its constructor a valid chain returns, and
    leaves in it the tokens of the chain, category by category. *)
Lemma chain_valid (ops : list (part * string)) (this : loc) (h : heap) :
  valid_ops ops = true ->
  h !! this = Some (OSelector empty_selector) ->
  chain ops this h = (Ok this, <[this := OSelector (state_of ops)]> h).
Proof.
  intros Hv Hh. assert (Hlt : this < length h) by (eapply lookup_lt_Some; eauto).
  induction ops as [| [p v] ops IH] using rev_ind.
  - simpl. unfold ret. f_equal. symmetry. apply list_insert_id. exact Hh.
  - destruct (valid_ops_snoc ops p v Hv) as (Hv' & Ho & Hs).
    rewrite chain_app. unfold bind at 1. rewrite (IH Hv').
    simpl. unfold bind.
    rewrite (invoke_at _ p this v (state_of ops))
      by (apply list_lookup_insert_eq; exact Hlt).
    replace (nonempty_string (get (state_of ops) (prop_of p))) with false.
    2:{ destruct p; try reflexivity; unfold state_of; simpl;
        rewrite (Hs eq_refl); reflexivity. }
    replace (rank p <? order (state_of ops)) with false
      by (symmetry; apply Nat.ltb_ge; exact Ho).
    unfold ret. f_equal. rewrite (state_of_snoc ops p v Hs).
    apply list_insert_insert_eq.
Qed.

Lemma filter_all {A} (f : A -> bool) (l : list A) :
  (forall x, In x l -> f x = true) -> List.filter f l = l.
Proof.
  induction l as [| x l IH]; intros H; [reflexivity |].
  simpl. rewrite (H x (or_introl eq_refl)), IH; [reflexivity |].
  intros y Hy. apply H. right. exact Hy.
Qed.

Lemma render_element (t : list string) :
  length t <= 1 ->
  join t = join (map (wrap Element) (List.filter (present Element) t)).
Proof.
  destruct t as [| v [| w t]]; simpl; intros H; [reflexivity | | lia].
  destruct v; reflexivity.
Qed.

Lemma render_prefixed (p : part) (pre : string) (t : list string) :
  singular p = true ->
  length t <= 1 ->
  MySelector_prototype.transform (VString (join t)) pre ""
  = join (map (fun token => pre +:+ token) (List.filter (present p) t)).
Proof.
  intros Hs. unfold present. rewrite Hs.
  destruct t as [| v [| w t]]; simpl; intros H; [reflexivity | | lia].
  destruct v as [| a v]; [reflexivity |].
  unfold MySelector_prototype.transform. simpl.
  rewrite append_empty_r. reflexivity.
Qed.

Lemma render_repeated (p : part) (pre post : string) (t : list string) :
  singular p = false ->
  MySelector_prototype.transform (VArray t) pre post
  = join (map (fun token => pre +:+ token +:+ post) (List.filter (present p) t)).
Proof.
  intros Hs. rewrite filter_all; [reflexivity |].
  intros x _. unfold present. rewrite Hs. reflexivity.
Qed.

Lemma at_most_once_length (p : part) (ops : list (part * string)) :
  at_most_once p ops = true -> length (tokens p ops) <= 1.
Proof. apply Nat.leb_le. Qed.

(** The text built from the fields that a valid chain leaves is the
    concatenation, category by category, of its parts. *)
Lemma selector_text_state_of (ops : list (part * string)) :
  valid_ops ops = true -> selector_text (state_of ops) = rendering ops.
Proof.
  unfold valid_ops. intros H.
  apply andb_prop in H as [H H6]. apply andb_prop in H as [H H2].
  apply andb_prop in H as [_ H1].
  apply at_most_once_length in H1, H2, H6.
  unfold rendering, categories. simpl flat_map.
  rewrite !join_app. change (join []) with "". rewrite append_empty_r.
  unfold selector_text, state_of. simpl get. simpl el.
  rewrite <- (render_element _ H1).
  rewrite (render_prefixed Id "#" _ eq_refl H2).
  rewrite (render_prefixed PseudoElement "::" _ eq_refl H6).
  rewrite (render_repeated Class "." "" _ eq_refl).
  rewrite (render_repeated Attr "[" "]" _ eq_refl).
  rewrite (render_repeated PseudoClass ":" "" _ eq_refl).
  rewrite (map_ext (fun token => "." +:+ token +:+ "") (wrap Class))
    by (intros a; unfold wrap; rewrite append_empty_r; reflexivity).
  rewrite (map_ext (fun token => ":" +:+ token +:+ "") (wrap PseudoClass))
    by (intros a; unfold wrap; rewrite append_empty_r; reflexivity).
  reflexivity.
Qed.

Lemma tokens_in (p : part) (v : string) (ops : list (part * string)) :
  In v (tokens p ops) -> In (p, v) ops.
Proof.
  unfold tokens. rewrite in_map_iff. intros [[q w] [Hw Hin]].
  apply filter_In in Hin as [Hin Hq]. simpl in *. subst w.
  replace p with q by (destruct q, p; simpl in Hq; congruence). exact Hin.
Qed.

Lemma rendering_all_present (ops : list (part * string)) :
  singular_tokens_nonempty ops = true ->
  rendering ops = rendering_as_specified ops.
Proof.
  unfold singular_tokens_nonempty. rewrite forallb_forall. intros H.
  assert (F : forall p, List.filter (present p) (tokens p ops) = tokens p ops).
  { intros p. apply filter_all. intros v Hv.
    exact (H (p, v) (tokens_in p v ops Hv)). }
  unfold rendering, rendering_as_specified, categories. simpl flat_map.
  rewrite !F. reflexivity.
Qed.

(** C1, as the program has it.  [new MySelector()] followed by a valid
    chain of part-adding calls and [stringify] returns the concatenation,
    in the order element, id, classes, attributes, pseudo-classes,
    pseudo-element, of the parts that are present, each wrapped in its
    delimiter, the values of a repeated category in insertion order; an
    element, id or pseudo-element is present when its token is not the empty
    string.  When no such token is empty, this is the concatenation over
    all the parts that were added. *)
Theorem valid_chain_renders
  (ops : list (part * string)) (h : heap) (fuel : nat) :
  valid_ops ops = true ->
  fst ((do s <- new_MySelector; do s' <- chain ops s; stringify (S fuel) s') h)
  = Ok (rendering ops)
  /\ (singular_tokens_nonempty ops = true ->
      rendering ops = rendering_as_specified ops).
Proof.
  intros Hv. split; [| apply rendering_all_present].
  unfold bind at 1. unfold new_MySelector, alloc.
  unfold bind at 1.
  rewrite (chain_valid ops (length h) _ Hv)
    by (apply list_lookup_middle; reflexivity).
  erewrite stringify_selector; [| apply list_lookup_insert_eq; rewrite length_app; simpl; lia].
  simpl. rewrite (selector_text_state_of ops Hv). reflexivity.
Qed.

(** [element('a').attr('href$=".png"').pseudoClass('focus')] *)
Lemma valid_chain_renders_witness :
  fst ((do s <- new_MySelector;
        do s' <- chain [(Element, "a"); (Attr, "href$=" +:+ dq +:+ ".png" +:+ dq);
                        (PseudoClass, "focus")] s;
        stringify 1 s') [])
  = Ok ("a[href$=" +:+ dq +:+ ".png" +:+ dq +:+ "]:focus").
Proof.
  exact (proj1 (valid_chain_renders
                  [(Element, "a"); (Attr, "href$=" +:+ dq +:+ ".png" +:+ dq);
                   (PseudoClass, "focus")] [] 0 eq_refl)).
Defined.

(** C1 as stated fails: the chain [id('')] is valid, an id was added, and
    the concatenation of the wrapped parts is [#]; [stringify] returns the
    empty string. *)
Lemma valid_chain_renders_counterexample :
  valid_ops [(Id, "")] = true
  /\ rendering_as_specified [(Id, "")] = "#"
  /\ fst ((do s <- cssSelectorBuilder.id ""; stringify 1 s) []) = Ok "".
Proof. repeat split. Qed.

(** ** getJSON and fromJSON *)




(** * Further properties of the selector builder *)

(** ** Which chains return *)

Lemma nondecreasing_snoc_eq (l : list nat) (x : nat) :
  nondecreasing (l ++ [x]) = nondecreasing l && (List.last l 0 <=? x).
Proof.
  induction l as [| a l IH]; [reflexivity |].
  destruct l as [| b l].
  - simpl. rewrite andb_true_r. reflexivity.
  - change (nondecreasing ((a :: b :: l) ++ [x]))
      with ((a <=? b) && nondecreasing ((b :: l) ++ [x])).
    rewrite IH.
    change (nondecreasing (a :: b :: l)) with ((a <=? b) && nondecreasing (b :: l)).
    change (List.last (a :: b :: l) 0) with (List.last (b :: l) 0).
    rewrite andb_assoc. reflexivity.
Qed.

Lemma forallb_split_last (t : list string) :
  forallb is_empty t
  = forallb is_empty (removelast t) && is_empty (List.last t "").
Proof.
  induction t as [| a t IH]; [reflexivity |].
  destruct t as [| b t].
  - simpl. rewrite andb_true_r. reflexivity.
  - change (forallb is_empty (a :: b :: t))
      with (is_empty a && forallb is_empty (b :: t)).
    rewrite IH.
    change (removelast (a :: b :: t)) with (a :: removelast (b :: t)).
    change (List.last (a :: b :: t) "") with (List.last (b :: t) "").
    simpl forallb at 2. rewrite andb_assoc. reflexivity.
Qed.

Lemma nonempty_string_is_empty (s : string) :
  nonempty_string (VString s) = negb (is_empty s).
Proof. destruct s; reflexivity. Qed.

Lemma earlier_tokens_empty_snoc (q p : part) (v : string) (ops : list (part * string)) :
  earlier_tokens_empty q (ops ++ [(p, v)])
  = if part_eqb p q
    then earlier_tokens_empty q ops && is_empty (List.last (tokens q ops) "")
    else earlier_tokens_empty q ops.
Proof.
  unfold earlier_tokens_empty. rewrite tokens_snoc.
  destruct (part_eqb p q).
  - rewrite List.removelast_last. apply forallb_split_last.
  - rewrite app_nil_r. reflexivity.
Qed.

Lemma accepted_snoc (ops : list (part * string)) (p : part) (v : string) :
  accepted (ops ++ [(p, v)])
  = accepted ops && passes_check (final_state ops) p.
Proof.
  unfold accepted, passes_check. rewrite List.map_app. simpl (map _ [_]).
  rewrite nondecreasing_snoc_eq, !earlier_tokens_empty_snoc.
  change (order (final_state ops))
    with (List.last (map (fun o => rank (fst o)) ops) 0).
  destruct p; simpl part_eqb; simpl get;
    rewrite ?nonempty_string_is_empty, ?negb_involutive; simpl negb;
    repeat match goal with
           | |- context [nondecreasing ?l] => generalize (nondecreasing l)
           | |- context [earlier_tokens_empty ?q ?l] =>
               generalize (earlier_tokens_empty q l)
           | |- context [is_empty ?x] => generalize (is_empty x)
           | |- context [?a <=? ?b] => generalize (a <=? b)
           end;
    intros; repeat match goal with b : bool |- _ => destruct b end; reflexivity.
Qed.

Lemma final_state_snoc (ops : list (part * string)) (p : part) (v : string) :
  put p v (set_order (rank p) (final_state ops)) = final_state (ops ++ [(p, v)]).
Proof.
  unfold final_state. rewrite !tokens_snoc, List.map_app.
  simpl (map _ [_]). rewrite List.last_last.
  destruct p; simpl; rewrite ?app_nil_r, ?List.last_last; reflexivity.
Qed.

Lemma invoke_passes (h : heap) (p : part) (this : loc) (v : string) (s : MySelector) :
  h !! this = Some (OSelector s) ->
  invoke p this v h =
    if passes_check s p
    then (Ok this, <[this := OSelector (put p v (set_order (rank p) s))]> h)
    else (Throw (check_error s p), h).
Proof.
  intros H. rewrite (invoke_at h p this v s H). unfold passes_check, check_error.
  destruct (nonempty_string _); [reflexivity |]. simpl.
  destruct (Nat.ltb_spec (rank p) (order s)) as [Hlt | Hge].
  - replace (order s <=? rank p) with false
      by (symmetry; apply Nat.leb_gt; exact Hlt). reflexivity.
  - replace (order s <=? rank p) with true
      by (symmetry; apply Nat.leb_le; exact Hge). reflexivity.
Qed.

Lemma chain_snoc (ops : list (part * string)) (p : part) (v : string)
  (this : loc) (h : heap) :
  chain (ops ++ [(p, v)]) this h
  = match chain ops this h with
    | (Ok s, h') => invoke p s v h'
    | (Throw e, h') => (Throw e, h')
    | (Undetermined, h') => (Undetermined, h')
    end.
Proof.
  rewrite chain_app. unfold bind.
  destruct (chain ops this h) as [[s | e |] h']; try reflexivity.
  simpl. unfold bind, ret. destruct (invoke p s v h') as [[l | e |] h'']; reflexivity.
Qed.

(** On a selector fresh from its constructor: an accepted chain returns and
    leaves [final_state]; any other chain throws at its first call that
    fails [check], in the store that the calls before it left. *)
Lemma chain_fresh (ops : list (part * string)) (this : loc) (h : heap) :
  h !! this = Some (OSelector empty_selector) ->
  (accepted ops = true
   /\ chain ops this h = (Ok this, <[this := OSelector (final_state ops)]> h))
  \/ (accepted ops = false
      /\ exists pre p v post,
          ops = pre ++ (p, v) :: post
          /\ accepted pre = true
          /\ passes_check (final_state pre) p = false
          /\ chain ops this h
             = (Throw (check_error (final_state pre) p),
                <[this := OSelector (final_state pre)]> h)).
Proof.
  intros Hh. assert (Hlt : this < length h) by (eapply lookup_lt_Some; eauto).
  induction ops as [| [p v] ops IH] using rev_ind.
  - left. split; [reflexivity |].
    simpl. unfold ret. f_equal. symmetry. apply list_insert_id. exact Hh.
  - rewrite accepted_snoc, chain_snoc.
    destruct IH as [[Ha Hc] | [Ha (pre & q & w & post & Hops & Hpre & Hq & Hc)]].
    + rewrite Ha, Hc.
      rewrite (invoke_passes _ p this v (final_state ops))
        by (apply list_lookup_insert_eq; exact Hlt).
      destruct (passes_check (final_state ops) p) eqn:Hp.
      * left. split; [reflexivity |]. f_equal.
        rewrite (final_state_snoc ops p v). apply list_insert_insert_eq.
      * right. split; [reflexivity |].
        exists ops, p, v, [].
        split; [reflexivity |]. split; [exact Ha |]. split; [exact Hp |].
        reflexivity.
    + right. rewrite Ha, Hc. split; [reflexivity |].
      exists pre, q, w, (post ++ [(p, v)]).
      split; [rewrite Hops, <- app_assoc; reflexivity |].
      split; [exact Hpre |]. split; [exact Hq |]. reflexivity.
Qed.

(** X1. A chain on a new selector returns exactly when it is accepted:
    ranks never decrease and, for element, id and pseudo-element, every
    token of the category but the last is the empty string.  It then returns
    the object it was called on, in which the singular fields hold the last
    token of their category and the arrays hold all tokens of theirs, in
    call order. *)
Theorem chain_returns_iff_accepted
  (ops : list (part * string)) (this : loc) (h : heap) :
  h !! this = Some (OSelector empty_selector) ->
  (accepted ops = true <-> exists l h', chain ops this h = (Ok l, h'))
  /\ (accepted ops = true ->
      chain ops this h = (Ok this, <[this := OSelector (final_state ops)]> h)).
Proof.
  intros Hh.
  destruct (chain_fresh ops this h Hh)
    as [[Ha Hc] | [Ha (pre & p & v & post & _ & _ & _ & Hc)]].
  - split; [| intros _; exact Hc].
    split; [intros _; eauto | intros _; exact Ha].
  - split; [| rewrite Ha; discriminate].
    split; [rewrite Ha; discriminate |].
    intros (l & h' & Hok). rewrite Hc in Hok. discriminate Hok.
Qed.

(** [element('').element('a').class('x')] is accepted. *)
Lemma chain_returns_iff_accepted_witness :
  chain [(Element, ""); (Element, "a"); (Class, "x")] 0 [OSelector empty_selector]
  = (Ok 0, [OSelector (mkMySelector "a" "" ["x"] [] [] "" 3)]).
Proof.
  exact (proj2 (chain_returns_iff_accepted
                  [(Element, ""); (Element, "a"); (Class, "x")] 0
                  [OSelector empty_selector] eq_refl) eq_refl).
Defined.

(** X2. When a chain on a new selector throws, it does so at its first
    call that fails [check]: the calls before it form an accepted chain,
    the selector holds what they added and nothing of the failed call, the
    calls after it are not made, and the error is the duplicate error when
    the field of the failed call held a non-empty string and the order error
    otherwise. *)
Theorem failed_chain_keeps_prefix
  (ops : list (part * string)) (this : loc) (h h' : heap) (e : error) :
  h !! this = Some (OSelector empty_selector) ->
  chain ops this h = (Throw e, h') ->
  exists pre p v post,
    ops = pre ++ (p, v) :: post
    /\ accepted pre = true
    /\ passes_check (final_state pre) p = false
    /\ e = check_error (final_state pre) p
    /\ h' = <[this := OSelector (final_state pre)]> h.
Proof.
  intros Hh He.
  destruct (chain_fresh ops this h Hh)
    as [[Ha Hc] | [Ha (pre & p & v & post & Hops & Hpre & Hp & Hc)]].
  - rewrite Hc in He. discriminate He.
  - rewrite Hc in He. injection He as <- <-.
    exists pre, p, v, post. repeat split; assumption.
Qed.

(** [element('a').class('x').id('b').attr('y')] throws at [id]. *)
Lemma failed_chain_keeps_prefix_witness :
  exists pre p v post,
    [(Element, "a"); (Class, "x"); (Id, "b"); (Attr, "y")] = pre ++ (p, v) :: post
    /\ accepted pre = true
    /\ passes_check (final_state pre) p = false
    /\ OrderViolationError = check_error (final_state pre) p
    /\ [OSelector (mkMySelector "a" "" ["x"] [] [] "" 3)]
       = <[0 := OSelector (final_state pre)]> [OSelector empty_selector].
Proof.
  exact (failed_chain_keeps_prefix
           [(Element, "a"); (Class, "x"); (Id, "b"); (Attr, "y")] 0
           [OSelector empty_selector] _ _ eq_refl eq_refl).
Defined.

(** ** What a returned chain renders to *)

Lemma filter_nonempty_last (t : list string) :
  forallb is_empty (removelast t) = true ->
  List.filter (fun x => negb (is_empty x)) t
  = if is_empty (List.last t "") then [] else [List.last t ""].
Proof.
  induction t as [| a t IH]; [reflexivity |].
  destruct t as [| b t].
  - intros _. simpl. destruct (is_empty a); reflexivity.
  - change (removelast (a :: b :: t)) with (a :: removelast (b :: t)).
    change (List.last (a :: b :: t) "") with (List.last (b :: t) "").
    intros H. simpl forallb in H. apply andb_prop in H as [Ha H].
    rewrite <- (IH H).
    change (List.filter (fun x => negb (is_empty x)) (a :: b :: t))
      with (if negb (is_empty a)
            then a :: List.filter (fun x => negb (is_empty x)) (b :: t)
            else List.filter (fun x => negb (is_empty x)) (b :: t)).
    rewrite Ha. reflexivity.
Qed.

Lemma render_last_element (t : list string) :
  forallb is_empty (removelast t) = true ->
  List.last t "" = join (map (wrap Element) (List.filter (present Element) t)).
Proof.
  intros H.
  change (List.filter (present Element) t)
    with (List.filter (fun x => negb (is_empty x)) t).
  rewrite (filter_nonempty_last t H).
  destruct (List.last t "") as [| a r]; reflexivity.
Qed.

Lemma render_last_prefixed (p : part) (pre : string) (t : list string) :
  singular p = true ->
  forallb is_empty (removelast t) = true ->
  MySelector_prototype.transform (VString (List.last t "")) pre ""
  = join (map (fun token => pre +:+ token) (List.filter (present p) t)).
Proof.
  intros Hs H.
  replace (List.filter (present p) t)
    with (List.filter (fun x => negb (is_empty x)) t)
    by (unfold present; rewrite Hs; reflexivity).
  rewrite (filter_nonempty_last t H).
  destruct (List.last t "") as [| a r]; [reflexivity |].
  unfold MySelector_prototype.transform. simpl.
  rewrite append_empty_r. reflexivity.
Qed.

Lemma selector_text_final_state (ops : list (part * string)) :
  accepted ops = true -> selector_text (final_state ops) = rendering ops.
Proof.
  unfold accepted, earlier_tokens_empty. intros H.
  apply andb_prop in H as [H H6]. apply andb_prop in H as [H H2].
  apply andb_prop in H as [_ H1].
  unfold rendering, categories. simpl flat_map.
  rewrite !join_app. change (join []) with "". rewrite append_empty_r.
  unfold selector_text, final_state. simpl get. simpl el.
  rewrite <- (render_last_element _ H1).
  rewrite (render_last_prefixed Id "#" _ eq_refl H2).
  rewrite (render_last_prefixed PseudoElement "::" _ eq_refl H6).
  rewrite (render_repeated Class "." "" _ eq_refl).
  rewrite (render_repeated Attr "[" "]" _ eq_refl).
  rewrite (render_repeated PseudoClass ":" "" _ eq_refl).
  rewrite (map_ext (fun token => "." +:+ token +:+ "") (wrap Class))
    by (intros a; unfold wrap; rewrite append_empty_r; reflexivity).
  rewrite (map_ext (fun token => ":" +:+ token +:+ "") (wrap PseudoClass))
    by (intros a; unfold wrap; rewrite append_empty_r; reflexivity).
  reflexivity.
Qed.

(** X3. Whenever a chain on a new selector returns, valid in the sense of
    the specification or not, [stringify] on what it returned gives the
    concatenation, category by category in the fixed order, of the wrapped
    tokens of the chain, the empty tokens of element, id and pseudo-element
    left out. *)
Theorem returned_chain_renders
  (ops : list (part * string)) (this l : loc) (h h' : heap) (fuel : nat) :
  h !! this = Some (OSelector empty_selector) ->
  chain ops this h = (Ok l, h') ->
  stringify (S fuel) l h' = (Ok (rendering ops), h').
Proof.
  intros Hh Hok.
  assert (Hlt : this < length h) by (eapply lookup_lt_Some; eauto).
  destruct (chain_fresh ops this h Hh)
    as [[Ha Hc] | [Ha (pre & p & v & post & _ & _ & _ & Hc)]];
    rewrite Hc in Hok; [| discriminate Hok].
  injection Hok as <- <-.
  rewrite (stringify_selector fuel this _ (final_state ops))
    by (apply list_lookup_insert_eq; exact Hlt).
  rewrite (selector_text_final_state ops Ha). reflexivity.
Qed.

(** [id('').id('x').class('a').class('b')] *)
Lemma returned_chain_renders_witness :
  stringify 1 0 [OSelector (mkMySelector "" "x" ["a"; "b"] [] [] "" 3)]
  = (Ok "#x.a.b", [OSelector (mkMySelector "" "x" ["a"; "b"] [] [] "" 3)]).
Proof.
  exact (returned_chain_renders
           [(Id, ""); (Id, "x"); (Class, "a"); (Class, "b")] 0 0
           [OSelector empty_selector] _ 0 eq_refl eq_refl).
Defined.

(** ** What the calls keep *)

Lemma parts_below_order_spec (s : MySelector) :
  parts_below_order s = true
  <-> order s <= 6 /\ forall q, holds s q = true -> rank q <= order s.
Proof.
  unfold parts_below_order. rewrite andb_true_iff, Nat.leb_le, forallb_forall.
  split; intros [H6 H]; (split; [exact H6 |]).
  - intros q Hq. assert (Hin : In q categories) by (destruct q; simpl; tauto).
    specialize (H q Hin). rewrite Hq in H. simpl in H. apply Nat.leb_le. exact H.
  - intros q _. destruct (holds s q) eqn:Hq; [| reflexivity].
    simpl. apply Nat.leb_le. apply H. exact Hq.
Qed.

Lemma passes_check_spec (s : MySelector) (p : part) :
  passes_check s p = true
  <-> nonempty_string (get s (prop_of p)) = false /\ order s <= rank p.
Proof.
  unfold passes_check. rewrite andb_true_iff, negb_true_iff, Nat.leb_le. tauto.
Qed.

Lemma holds_put (s : MySelector) (p q : part) (v : string) (n : nat) :
  holds (put p v (set_order n s)) q = true -> q = p \/ holds s q = true.
Proof. destruct p, q; simpl; auto. Qed.

Lemma put_below_order (s : MySelector) (p : part) (v : string) :
  parts_below_order s = true -> passes_check s p = true ->
  parts_below_order (put p v (set_order (rank p) s)) = true.
Proof.
  rewrite !parts_below_order_spec, passes_check_spec.
  intros [H6 H] [_ Ho].
  replace (order (put p v (set_order (rank p) s))) with (rank p)
    by (destruct p; reflexivity).
  split; [destruct p; simpl; lia |].
  intros q Hq. destruct (holds_put s p q v _ Hq) as [-> | Hq']; [lia |].
  specialize (H q Hq'). lia.
Qed.

Lemma store_ordered_spec (h : heap) :
  store_ordered h = true
  <-> forall l s, h !! l = Some (OSelector s) -> parts_below_order s = true.
Proof.
  unfold store_ordered. rewrite forallb_forall. split.
  - intros H l s Hl. apply (H (OSelector s)).
    apply list_elem_of_In. eapply list_elem_of_lookup_2. exact Hl.
  - intros H [s | k] Hin; [| reflexivity].
    apply list_elem_of_In, list_elem_of_lookup_1 in Hin as [l Hl]. eauto.
Qed.

Lemma run_call_ordered (k : call) (h : heap) :
  store_ordered h = true -> store_ordered (run_call k h) = true.
Proof.
  rewrite !store_ordered_spec. intros H.
  destruct k as [p this v | fuel this | p v | l1 t l2]; simpl.
  - destruct (h !! this) as [[s | k] |] eqn:E.
    + rewrite (invoke_passes h p this v s E).
      destruct (passes_check s p) eqn:Hp; [| exact H].
      simpl. intros l s' Hl.
      destruct (decide (this = l)) as [<- | Hne].
      * assert (Hs : Some (OSelector s')
                     = Some (OSelector (put p v (set_order (rank p) s))))
          by (rewrite <- Hl; apply list_lookup_insert_eq;
              eapply lookup_lt_Some; eauto).
        injection Hs as ->. apply put_below_order; eauto.
      * assert (Hs : h !! l = Some (OSelector s'))
          by (rewrite <- Hl; symmetry; apply list_lookup_insert_ne; exact Hne).
        eauto.
    + rewrite invoke_elsewhere by congruence. exact H.
    + rewrite invoke_elsewhere by congruence. exact H.
  - rewrite stringify_heap. exact H.
  - rewrite builder_at. simpl. intros l s Hl.
    apply lookup_app_Some in Hl as [Hl | [_ Hl]]; [eauto |].
    destruct (l - length h) as [| n]; [| destruct n; discriminate Hl].
    injection Hl as <-.
    apply put_below_order; [reflexivity | destruct p; reflexivity].
  - intros l s Hl.
    apply lookup_app_Some in Hl as [Hl | [_ Hl]]; [eauto |].
    destruct (l - length h) as [| n]; [discriminate Hl | destruct n; discriminate Hl].
Qed.

(** X4. Whatever the program calls, every selector of the store keeps
    this: [order] is at most 6, and a part that the selector holds (a
    non-empty element, id or pseudo-element, or an array with an item) has a
    rank that [order] has reached. *)
Theorem calls_keep_store_ordered (ks : list call) (h : heap) :
  store_ordered h = true -> store_ordered (run_calls ks h) = true.
Proof.
  revert h. induction ks as [| k ks IH]; intros h H; [exact H |].
  simpl. apply IH, run_call_ordered, H.
Qed.

(** A program that builds two selectors, fails once and combines them. *)
Lemma calls_keep_store_ordered_witness :
  store_ordered
    (run_calls [CallBuilder Element "div"; CallPart Class 0 "box";
                CallPart Id 0 "late"; CallBuilder PseudoElement "after";
                CallCombine 0 ">" 1] [])
  = true.
Proof.
  exact (calls_keep_store_ordered
           [CallBuilder Element "div"; CallPart Class 0 "box";
            CallPart Id 0 "late"; CallBuilder PseudoElement "after";
            CallCombine 0 ">" 1] [] eq_refl).
Defined.

(** ** A selector only grows *)

Lemma starts_with_app (a e : list string) : starts_with a (a ++ e) = true.
Proof.
  induction a as [| x a IH]; [reflexivity |].
  simpl. rewrite String.eqb_refl. exact IH.
Qed.

Lemma starts_with_refl (a : list string) : starts_with a a = true.
Proof. rewrite <- (app_nil_r a) at 2. apply starts_with_app. Qed.

Lemma starts_with_trans (a b d : list string) :
  starts_with a b = true -> starts_with b d = true -> starts_with a d = true.
Proof.
  revert b d. induction a as [| x a IH]; intros b d Hab Hbd; [reflexivity |].
  destruct b as [| y b]; [discriminate Hab |].
  destruct d as [| z d]; [discriminate Hbd |].
  simpl in *. apply andb_prop in Hab as [Hxy Hab]. apply andb_prop in Hbd as [Hyz Hbd].
  apply String.eqb_eq in Hxy, Hyz. subst. rewrite String.eqb_refl.
  exact (IH b d Hab Hbd).
Qed.

Lemma kept_refl (x : string) : kept x x = true.
Proof. unfold kept. rewrite String.eqb_refl. apply orb_true_r. Qed.

Lemma kept_trans (x y z : string) :
  kept x y = true -> kept y z = true -> kept x z = true.
Proof.
  unfold kept. destruct (is_empty x) eqn:Ex; [reflexivity |]. simpl.
  intros Hxy. apply String.eqb_eq in Hxy. subst y. rewrite Ex. simpl. tauto.
Qed.

Lemma extends_refl (s : MySelector) : extends s s = true.
Proof.
  unfold extends. rewrite Nat.leb_refl, !starts_with_refl, !kept_refl. reflexivity.
Qed.

Lemma extends_trans (s t u : MySelector) :
  extends s t = true -> extends t u = true -> extends s u = true.
Proof.
  unfold extends. rewrite !andb_true_iff, !Nat.leb_le.
  intros [[[[[[H1 H2] H3] H4] H5] H6] H7] [[[[[[K1 K2] K3] K4] K5] K6] K7].
  repeat split;
    eauto using starts_with_trans, kept_trans, Nat.le_trans.
Qed.

Lemma extends_put (s : MySelector) (p : part) (v : string) :
  passes_check s p = true ->
  extends s (put p v (set_order (rank p) s)) = true.
Proof.
  rewrite passes_check_spec. intros [Hn Ho]. apply Nat.leb_le in Ho.
  unfold extends.
  replace (order (put p v (set_order (rank p) s))) with (rank p)
    by (destruct p; reflexivity).
  rewrite Ho.
  destruct p; cbn [get prop_of] in Hn;
    rewrite ?nonempty_string_is_empty, ?negb_false_iff in Hn;
    simpl; unfold kept;
    rewrite ?Hn, ?starts_with_refl, ?starts_with_app, ?String.eqb_refl,
      ?orb_true_r; reflexivity.
Qed.

Lemma run_call_extends (k : call) (h : heap) (l : loc) (s : MySelector) :
  h !! l = Some (OSelector s) ->
  exists s', run_call k h !! l = Some (OSelector s') /\ extends s s' = true.
Proof.
  intros H.
  destruct k as [p this v | fuel this | p v | l1 t l2]; simpl.
  - destruct (decide (this = l)) as [-> | Hne].
    + rewrite (invoke_passes h p l v s H).
      destruct (passes_check s p) eqn:Hp; [| eauto using extends_refl].
      simpl. eexists. split.
      * apply list_lookup_insert_eq. eapply lookup_lt_Some; eauto.
      * apply extends_put. exact Hp.
    + rewrite invoke_other by exact Hne. eauto using extends_refl.
  - rewrite stringify_heap. eauto using extends_refl.
  - rewrite builder_at. simpl. exists s. split; [| apply extends_refl].
    apply lookup_app_l_Some. exact H.
  - exists s. split; [| apply extends_refl]. apply lookup_app_l_Some. exact H.
Qed.

(** X5. No sequence of calls shrinks a selector.  It stays a selector at
    its location; its [order] never decreases; its class, attribute and
    pseudo-class arrays only gain items at their end; and an element, id or
    pseudo-element that is a non-empty string is never replaced. *)
Theorem selector_only_grows
  (ks : list call) (h : heap) (l : loc) (s : MySelector) :
  h !! l = Some (OSelector s) ->
  exists s', run_calls ks h !! l = Some (OSelector s') /\ extends s s' = true.
Proof.
  revert h s. induction ks as [| k ks IH]; intros h s H.
  - exists s. split; [exact H | apply extends_refl].
  - destruct (run_call_extends k h l s H) as (s' & H' & E).
    destruct (IH (run_call k h) s' H') as (s'' & H'' & E').
    exists s''. split; [exact H'' | exact (extends_trans s s' s'' E E')].
Qed.

(** [#main.a] under two accepted calls, two rejected ones and a rendering. *)
Lemma selector_only_grows_witness :
  exists s',
    run_calls [CallPart Class 0 "b"; CallPart Id 0 "other";
               CallPart Element 0 "div"; CallStringify 1 0;
               CallPart PseudoClass 0 "hover"]
      [OSelector (mkMySelector "" "main" ["a"] [] [] "" 3)] !! 0
    = Some (OSelector s')
    /\ extends (mkMySelector "" "main" ["a"] [] [] "" 3) s' = true.
Proof.
  exact (selector_only_grows
           [CallPart Class 0 "b"; CallPart Id 0 "other";
            CallPart Element 0 "div"; CallStringify 1 0;
            CallPart PseudoClass 0 "hover"]
           [OSelector (mkMySelector "" "main" ["a"] [] [] "" 3)] 0 _ eq_refl).
Defined.

(** ** Combined selectors are never written *)

Lemma run_call_keeps_combined (k : call) (h : heap) (l : loc) (n : MyCombinedSelector) :
  h !! l = Some (OCombined n) -> run_call k h !! l = Some (OCombined n).
Proof.
  intros H.
  destruct k as [p this v | fuel this | p v | l1 t l2]; simpl.
  - destruct (decide (this = l)) as [-> | Hne].
    + rewrite invoke_elsewhere by congruence. exact H.
    + rewrite invoke_other by exact Hne. exact H.
  - rewrite stringify_heap. exact H.
  - rewrite builder_at. simpl. apply lookup_app_l_Some. exact H.
  - apply lookup_app_l_Some. exact H.
Qed.

Lemma run_call_length (k : call) (h : heap) : length h <= length (run_call k h).
Proof.
  destruct k as [p this v | fuel this | p v | l1 t l2]; simpl.
  - destruct (h !! this) as [[s | n] |] eqn:E.
    + rewrite (invoke_passes h p this v s E).
      destruct (passes_check s p); simpl; [| lia].
      apply Nat.eq_le_incl. symmetry. apply length_insert.
    + rewrite invoke_elsewhere by congruence. simpl. lia.
    + rewrite invoke_elsewhere by congruence. simpl. lia.
  - rewrite stringify_heap. lia.
  - rewrite builder_at. simpl. rewrite length_app. lia.
  - rewrite length_app. lia.
Qed.

(** X6. A combined selector is written once, by [combine]: whatever the
    program calls afterwards, the object at its location is the same
    combined selector, with the same two references and the same combinator;
    a part-adding method called on it throws [TypeError].  No call removes an
    object from the store. *)
Theorem combined_is_immutable
  (ks : list call) (h : heap) (l : loc) (n : MyCombinedSelector)
  (p : part) (v : string) :
  h !! l = Some (OCombined n) ->
  run_calls ks h !! l = Some (OCombined n)
  /\ length h <= length (run_calls ks h)
  /\ invoke p l v (run_calls ks h) = (Throw TypeError, run_calls ks h).
Proof.
  intros H.
  assert (Hk : run_calls ks h !! l = Some (OCombined n)).
  { revert h H. induction ks as [| k ks IH]; intros h H; [exact H |].
    simpl. apply IH, run_call_keeps_combined, H. }
  split; [exact Hk |]. split.
  - clear. revert h. induction ks as [| k ks IH]; intros h; [simpl; lia |].
    simpl. pose proof (run_call_length k h). specialize (IH (run_call k h)). lia.
  - apply invoke_elsewhere. congruence.
Qed.

(** [combine(a, '+', b)], then calls on the children and on the node. *)
Lemma combined_is_immutable_witness :
  let h := snd (div_main_plus_table_data []) in
  let ks := [CallPart Class 0 "x"; CallPart Class 2 "y"; CallCombine 2 "~" 1] in
  run_calls ks h !! 2 = Some (OCombined (mkMyCombinedSelector 0 "+" 1))
  /\ length h <= length (run_calls ks h)
  /\ invoke Class 2 "z" (run_calls ks h) = (Throw TypeError, run_calls ks h).
Proof.
  exact (combined_is_immutable
           [CallPart Class 0 "x"; CallPart Class 2 "y"; CallCombine 2 "~" 1]
           (snd (div_main_plus_table_data [])) 2
           (mkMyCombinedSelector 0 "+" 1) Class "z" eq_refl).
Defined.

(** ** The rendering is built left to right *)

Lemma transform_push (a : list string) (v pre post : string) :
  MySelector_prototype.transform (VArray (a ++ [v])) pre post
  = MySelector_prototype.transform (VArray a) pre post +:+ (pre +:+ v +:+ post).
Proof.
  unfold MySelector_prototype.transform. simpl falsy. cbv iota.
  rewrite List.map_app, join_app. reflexivity.
Qed.

Lemma transform_nothing (pre post : string) :
  MySelector_prototype.transform (VString "") pre post = ""
  /\ MySelector_prototype.transform (VArray []) pre post = "".
Proof. split; reflexivity. Qed.

Lemma transform_token (a : ascii) (v pre post : string) :
  MySelector_prototype.transform (VString (String a v)) pre post
  = pre +:+ String a v +:+ post.
Proof. reflexivity. Qed.

Lemma append_empty_l (s : string) : "" +:+ s = s.
Proof. reflexivity. Qed.

Lemma below_order_empty (s : MySelector) (q : part) :
  parts_below_order s = true -> order s < rank q -> holds s q = false.
Proof.
  rewrite parts_below_order_spec. intros [_ H] Hlt.
  destruct (holds s q) eqn:Hq; [| reflexivity].
  specialize (H q Hq). lia.
Qed.

Ltac empty_above He q :=
  first [ let H := fresh "Hq" in
          assert (H := He q ltac:(simpl; lia)); unfold holds in H; simpl in H
        | idtac ].

Ltac clear_empty :=
  repeat match goal with
         | H : negb (is_empty ?x) = false |- _ =>
             destruct x; [clear H | discriminate H]
         | H : match ?a with [] => false | _ :: _ => true end = false |- _ =>
             destruct a; [clear H | discriminate H]
         | H : nonempty_string (VString ?x) = false |- _ =>
             destruct x; [clear H | discriminate H]
         end.

Lemma put_text (s : MySelector) (p : part) (v : string) :
  parts_below_order s = true ->
  passes_check s p = true ->
  selector_text (put p v (set_order (rank p) s))
  = selector_text s +:+ (if present p v then wrap p v else "").
Proof.
  intros Hinv Hp. apply passes_check_spec in Hp as [Hn Ho].
  assert (He : forall q, rank p < rank q -> holds s q = false)
    by (intros q Hq; apply below_order_empty; [exact Hinv | lia]).
  clear Hinv Ho. destruct s as [e i cl at_ pc pe o].
  destruct p; cbn [get prop_of el idValue cls attrValue psdCls psdEl] in Hn;
    empty_above He Element; empty_above He Id; empty_above He Class;
    empty_above He Attr; empty_above He PseudoClass; empty_above He PseudoElement;
    clear He; clear_empty;
    unfold selector_text, present, wrap;
    cbn [put set_order set_el set_idValue push_cls push_attrValue push_psdCls
         set_psdEl get el idValue cls attrValue psdCls psdEl singular andb negb];
    rewrite ?transform_push,
      ?(proj1 (transform_nothing _ _)), ?(proj2 (transform_nothing _ _));
    try (destruct v as [| a v];
         cbn [is_empty negb];
         rewrite ?(proj1 (transform_nothing _ _)), ?transform_token);
    rewrite ?append_assoc, ?append_empty_r, ?append_empty_l;
    reflexivity.
Qed.

(** X7. On a selector that satisfies the invariant of the store, every
    part-adding call that returns extends the rendering at its end: the text
    of the selector after the call is its text before the call followed by
    the wrapped part (by nothing, when the part is an element, id or
    pseudo-element with the empty string as token). *)
Theorem successful_call_appends
  (h h' : heap) (p : part) (this l : loc) (v : string) (s : MySelector)
  (fuel : nat) :
  parts_below_order s = true ->
  h !! this = Some (OSelector s) ->
  invoke p this v h = (Ok l, h') ->
  stringify (S fuel) l h'
  = (Ok (selector_text s +:+ (if present p v then wrap p v else "")), h').
Proof.
  intros Hinv H Hcall. rewrite (invoke_passes h p this v s H) in Hcall.
  destruct (passes_check s p) eqn:Hp; [| discriminate Hcall].
  injection Hcall as <- <-.
  rewrite (stringify_selector fuel this _ (put p v (set_order (rank p) s)))
    by (apply list_lookup_insert_eq; eapply lookup_lt_Some; eauto).
  rewrite (put_text s p v Hinv Hp). reflexivity.
Qed.

(** [div#main.a] and then [.attr('x=1')]. *)
Lemma successful_call_appends_witness :
  let h := [OSelector (mkMySelector "div" "main" ["a"] [] [] "" 3)] in
  stringify 1 0 (snd (invoke Attr 0 "x=1" h))
  = (Ok "div#main.a[x=1]", snd (invoke Attr 0 "x=1" h)).
Proof.
  exact (successful_call_appends
           [OSelector (mkMySelector "div" "main" ["a"] [] [] "" 3)] _
           Attr 0 0 "x=1" (mkMySelector "div" "main" ["a"] [] [] "" 3) 0
           eq_refl eq_refl eq_refl).
Defined.

(** ** Combined selectors hold references *)



(** ** Every node of a reachable store renders *)

(** X9. In every store that a program reaches from the empty one, by
    any calls of the public operations in which [combine] is given objects
    that exist, [stringify] returns on every object: the recursion through
    the children of combined selectors ends, with fuel above the location
    of the node, and the result does not depend on the fuel. *)
Theorem reachable_nodes_render (ks : list call) (l : loc) :
  calls_admissible ks [] = true ->
  l < length (run_calls ks []) ->
  exists str, forall fuel,
    l < fuel ->
    stringify fuel l (run_calls ks []) = (Ok str, run_calls ks []).
Proof.
  intros Ha Hl. apply stringify_total_here; [| exact Hl].
  apply reachable_well_built; [reflexivity | exact Ha].
Qed.

(** A program with a failing call and two levels of [combine]. *)
Lemma reachable_nodes_render_witness :
  let ks := [CallBuilder Element "a"; CallBuilder Class "b";
             CallPart Element 1 "late"; CallCombine 0 ">" 1;
             CallBuilder Id "c"; CallCombine 2 "~" 3; CallPart Class 3 "d"] in
  exists str, forall fuel,
    4 < fuel -> stringify fuel 4 (run_calls ks []) = (Ok str, run_calls ks []).
Proof.
  exact (reachable_nodes_render
           [CallBuilder Element "a"; CallBuilder Class "b";
            CallPart Element 1 "late"; CallCombine 0 ">" 1;
            CallBuilder Id "c"; CallCombine 2 "~" 3; CallPart Class 3 "d"] 4
           eq_refl (le_n 5)).
Defined.

Example reachable_nodes_render_text :
  fst (stringify 5 4
         (run_calls [CallBuilder Element "a"; CallBuilder Class "b";
                     CallPart Element 1 "late"; CallCombine 0 ">" 1;
                     CallBuilder Id "c"; CallCombine 2 "~" 3;
                     CallPart Class 3 "d"] []))
  = Ok "a > .b ~ #c.d".
Proof. reflexivity. Qed.

(** ** Rectangle: the area is fixed at construction *)

Lemma getArea_assign_fields (xs : list field_assignment) (r : Rectangle) :
  getArea (assign_fields xs r) = getArea r.
Proof.
  revert r. induction xs as [| a xs IH]; intros r; [reflexivity |].
  simpl. rewrite IH. destruct a; reflexivity.
Qed.

(** X10. [getArea] reads the arguments that the constructor was given, not
    the fields: after any sequence of assignments to [width] and [height],
    the field assigned last holds the value assigned, and [getArea] still
    returns the product of the two constructor arguments. *)
Theorem getArea_ignores_assignments
  (w h x : float) (xs : list field_assignment) :
  getArea (assign_fields xs (new_Rectangle w h)) tt = (w * h)%float
  /\ width (assign_fields (xs ++ [AssignWidth x]) (new_Rectangle w h)) = x
  /\ height (assign_fields (xs ++ [AssignHeight x]) (new_Rectangle w h)) = x
  /\ getArea (assign_fields (xs ++ [AssignWidth x]) (new_Rectangle w h)) tt
     = (w * h)%float.
Proof.
  rewrite !getArea_assign_fields. unfold assign_fields. rewrite !fold_left_app.
  repeat split.
Qed.

Example Rectangle_stale_area :
  let r := assign_fields [AssignWidth 3; AssignHeight 4] (new_Rectangle 10 20) in
  width r = 3%float /\ height r = 4%float /\ getArea r tt = 200%float.
Proof. repeat split. Qed.

(** ** fromJSON: what it returns and what it throws *)

(** X11. Whatever [fromJSON] does is decided by the parser's result.  If
    it returns, the parser returned the very structure that [fromJSON]
    hands back, and the prototype was set exactly when that structure is an
    object or an array (a number, string or boolean comes back as it was
    parsed).  If it throws, either the parser threw that same error, or the
    parser returned [null] (or [undefined]) and the error is [TypeError]. *)
Theorem fromJSON_inversion
  (Proto : Type) (JSON_parse : string -> outcome jsvalue)
  (proto : Proto) (json : string) (r : outcome (instance Proto)) :
  fromJSON Proto JSON_parse proto json = r ->
  match r with
  | Ok obj =>
      JSON_parse json = Ok (plain obj)
      /\ prototype obj = (if is_object (plain obj) then Given proto else Builtin)
      /\ plain obj <> JNull /\ plain obj <> JUndefined
  | Throw e =>
      JSON_parse json = Throw e
      \/ (e = TypeError
          /\ (JSON_parse json = Ok JNull \/ JSON_parse json = Ok JUndefined))
  | Undetermined => JSON_parse json = Undetermined
  end.
Proof.
  intros <-. unfold fromJSON, Object_setPrototypeOf.
  destruct (JSON_parse json) as [v | e |]; [| left; reflexivity | reflexivity].
  destruct v; simpl; try (repeat split; discriminate); right; auto.
Qed.

(** The text [null], which parses, and on which [fromJSON] throws. *)
Lemma fromJSON_inversion_witness :
  JSON_parse_table "null" = Throw TypeError
  \/ (TypeError = TypeError
      /\ (JSON_parse_table "null" = Ok JNull
          \/ JSON_parse_table "null" = Ok JUndefined)).
Proof.
  exact (fromJSON_inversion _ JSON_parse_table Circle_prototype "null"
           (Throw TypeError) eq_refl).
Defined.
